(** * DeepMoon: unique crater extraction ([get_unique_craters.py])

    A shallow embedding of [add_unique_craters] and of the loop of
    [extract_unique_craters], and the properties of the crater registry
    that follow from them.

    Numbers.  A numpy [float64] is modelled by [float]: an exact rational
    or one of the IEEE special values (the two infinities, NaN).  Rounding,
    overflow and the sign of zero are abstracted away; division by zero and
    the comparisons with NaN behave as numpy's do.  A statement whose truth
    depends on the size of a number therefore carries an explicit range
    ([sizeable], [geometry_in_range]) inside which binary64 neither
    underflows to zero nor overflows, or is worded so that rounding cannot
    break it.

    Arrays.  An [n x 3] array is the list of its rows. *)

From Stdlib Require Import QArith Qround ZArith List Bool String Lia Lqa.
From stdpp Require Import base gmap list.
Import ListNotations.

Set Default Proof Using "Type".

(* ================================================================== *)
(** ** numpy floats *)
(* ================================================================== *)

Module Float.

Inductive float : Type :=
  | Fin (q : Q)         (* a finite value *)
  | Inf (neg : bool)    (* [Inf false] is +inf, [Inf true] is -inf *)
  | NaN.

Definition Qltb (a b : Q) : bool := negb (Qle_bool b a).
Definition Qis0 (a : Q) : bool := Qeq_bool a 0.
Definition Qneg (a : Q) : bool := Qltb a 0.

Definition opp (x : float) : float :=
  match x with
  | Fin a => Fin (- a)
  | Inf s => Inf (negb s)
  | NaN => NaN
  end.

Definition add (x y : float) : float :=
  match x, y with
  | NaN, _ | _, NaN => NaN
  | Fin a, Fin b => Fin (a + b)
  | Fin _, Inf s | Inf s, Fin _ => Inf s
  | Inf s, Inf t => if Bool.eqb s t then Inf s else NaN
  end.

Definition sub (x y : float) : float := add x (opp y).

Definition mul (x y : float) : float :=
  match x, y with
  | NaN, _ | _, NaN => NaN
  | Fin a, Fin b => Fin (a * b)
  | Fin a, Inf s | Inf s, Fin a =>
      if Qis0 a then NaN else Inf (xorb s (Qneg a))
  | Inf s, Inf t => Inf (xorb s t)
  end.

(** [x / y] on arrays and numpy scalars: a zero divisor gives an infinity,
    or NaN for [0 / 0]; nothing is raised. *)
Definition div (x y : float) : float :=
  match x, y with
  | NaN, _ | _, NaN => NaN
  | Fin a, Fin b =>
      if Qis0 b then (if Qis0 a then NaN else Inf (Qneg a))
      else Fin (a / b)
  | Fin _, Inf _ => Fin 0
  | Inf s, Fin b => Inf (xorb s (Qneg b))
  | Inf _, Inf _ => NaN
  end.

(** [x ** 2] *)
Definition sq (x : float) : float := mul x x.

(** [x < y]; false as soon as one side is NaN. *)
Definition ltb (x y : float) : bool :=
  match x, y with
  | NaN, _ | _, NaN => false
  | Fin a, Fin b => Qltb a b
  | Fin _, Inf s => negb s
  | Inf s, Fin _ => s
  | Inf s, Inf t => s && negb t
  end.

(** [x <= y] *)
Definition leb (x y : float) : bool :=
  match x, y with
  | NaN, _ | _, NaN => false
  | Fin a, Fin b => Qle_bool a b
  | Fin _, Inf s => negb s
  | Inf s, Fin _ => s
  | Inf s, Inf t => s || negb t
  end.

(** [x == y] *)
Definition eqb (x y : float) : bool :=
  match x, y with
  | Fin a, Fin b => Qeq_bool a b
  | Inf s, Inf t => Bool.eqb s t
  | _, _ => false
  end.

Definition is_finite (x : float) : Prop :=
  match x with Fin _ => True | _ => False end.

(** A positive finite value, or +inf. *)
Definition is_positive (x : float) : Prop := ltb (Fin 0) x = true.

End Float.

Export Float.

Declare Scope float_scope.
Delimit Scope float_scope with float.
Bind Scope float_scope with float.
Infix "+" := add : float_scope.
Infix "-" := sub : float_scope.
Infix "*" := mul : float_scope.
Infix "/" := div : float_scope.
Infix "<?" := ltb : float_scope.
Infix "<=?" := leb : float_scope.
Infix "=?" := eqb : float_scope.

Coercion Fin : Q >-> float.

(** [np.pi], the rational its binary64 value denotes. *)
Definition np_pi : float := Fin (884279719003555 # 281474976710656).

(* ================================================================== *)
(** ** Arrays of craters *)
(* ================================================================== *)

(** A row [(long, lat, radius)] and an [n x 3] array of rows. *)
Definition crater : Type := float * float * float.
Definition array : Type := list crater.

Definition c_long (c : crater) : float := fst (fst c).
Definition c_lat (c : crater) : float := snd (fst c).
Definition c_rad (c : crater) : float := snd c.

(** [a.T], unpacked into its three columns. *)
Definition transpose (a : array) : list float * list float * list float :=
  (map c_long a, map c_lat a, map c_rad a).

(** [xs[bs]]: boolean-mask indexing. *)
Fixpoint mask {A : Type} (xs : list A) (bs : list bool) : list A :=
  match xs, bs with
  | x :: xs', b :: bs' => if b then x :: mask xs' bs' else mask xs' bs'
  | _, _ => []
  end.

(** [np.where(bs == True)[0]]: the positions that hold [True]. *)
Fixpoint np_where_from (i : nat) (bs : list bool) : list nat :=
  match bs with
  | [] => []
  | b :: bs' =>
      if Bool.eqb b true then i :: np_where_from (S i) bs'
      else np_where_from (S i) bs'
  end.

Definition np_where (bs : list bool) : list nat := np_where_from 0 bs.

(** [np.vstack((a, row))] *)
Definition vstack (a : array) (row : crater) : array := a ++ [row].

(** [np.concatenate((a, b))] *)
Definition concatenate (a b : array) : array := a ++ b.

(* ================================================================== *)
(** ** [add_unique_craters] *)
(* ================================================================== *)

Definition km_to_deg : float := (Fin 180 / (np_pi * Fin 1737.4))%float.

Section Merge.

Variables thresh_longlat2 thresh_rad2 : float.

(** The body of the loop for one candidate [craters[j]]: does it reach one
    of the two [np.vstack] lines?  [Long], [Lat], [Rad] are the columns
    that were unpacked before the loop. *)
Definition is_appended (Long Lat Rad : list float) (cj : crater) : bool :=
  let '(lo, la, r) := cj in
  let diff_longlat :=
    zip_with (fun L B => (sq (L - lo) + sq (B - la)) / sq (r * km_to_deg))%float
             Long Lat in
  let Rad_ := mask Rad (map (fun d => d <? thresh_longlat2)%float diff_longlat) in
  if (0 <? length Rad_)%nat then
    let diff_rad := map (fun R => sq ((R - r) / r))%float Rad_ in
    let index := map (fun d => d <? thresh_rad2)%float diff_rad in
    (length (np_where index) =? 0)%nat
  else true.

Definition merge_step (Long Lat Rad : list float)
    (craters_unique : array) (cj : crater) : array :=
  if is_appended Long Lat Rad cj then vstack craters_unique cj
  else craters_unique.

Definition add_unique_craters (craters craters_unique : array) : array :=
  let '(Long, Lat, Rad) := transpose craters_unique in
  fold_left (merge_step Long Lat Rad) craters craters_unique.

(** *** The matching rule in the words of the specification *)

Definition diff_longlat_of (e c : crater) : float :=
  ((sq (c_long e - c_long c) + sq (c_lat e - c_lat c))
   / sq (c_rad c * km_to_deg))%float.

Definition diff_rad_of (e c : crater) : float :=
  sq ((c_rad e - c_rad c) / c_rad c)%float.

(** Entry [e] of the catalog matches candidate [c]. *)
Definition matches (c e : crater) : bool :=
  (diff_longlat_of e c <? thresh_longlat2)%float
  && (diff_rad_of e c <? thresh_rad2)%float.

(** [c] is a duplicate: some entry of [catalog] matches it. *)
Definition is_duplicate (catalog : array) (c : crater) : bool :=
  existsb (matches c) catalog.

Definition is_new (catalog : array) (c : crater) : bool :=
  negb (is_duplicate catalog c).

End Merge.

(* ================================================================== *)
(** ** [add_unique_craters] on the store *)
(* ================================================================== *)

(** Python passes arrays by reference.  The store maps the identity of an
    array object to its contents; [np.vstack] builds a new object and the
    local name [craters_unique] is rebound to it, while [Long], [Lat] and
    [Rad] stay views of the object that was passed in. *)

Definition loc : Type := positive.
Abbreviation heap := (gmap loc array).

Definition alloc (h : heap) (a : array) : loc * heap :=
  let l := fresh (dom h) in (l, <[l := a]> h).

Section MergeStore.

Variables thresh_longlat2 thresh_rad2 : float.

(** The loop over [j]; [view] is the object behind [Long], [Lat], [Rad],
    [cu] the object the name [craters_unique] is bound to. *)
Fixpoint merge_loop (craters view : loc) (js : list nat) (cu : loc)
    (h : heap) : option (loc * heap) :=
  match js with
  | [] => Some (cu, h)
  | j :: js' =>
      b ← h !! craters;
      cj ← b !! j;
      v ← h !! view;
      let '(Long, Lat, Rad) := transpose v in
      if is_appended thresh_longlat2 thresh_rad2 Long Lat Rad cj then
        cur ← h !! cu;
        let '(l, h') := alloc h (vstack cur cj) in
        merge_loop craters view js' l h'
      else merge_loop craters view js' cu h
  end.

(** Returns the object bound to [craters_unique] at the [return], and the
    store after the call; [None] when an argument is not an array of the
    store. *)
Definition add_unique_craters_st (craters craters_unique : loc) (h : heap)
    : option (loc * heap) :=
  b ← h !! craters;
  _ ← h !! craters_unique;
  merge_loop craters craters_unique (seq 0 (length b)) craters_unique h.

End MergeStore.

(* ================================================================== *)
(** ** Pixel to degree / km conversion *)
(* ================================================================== *)

Definition bounds4 (A : Type) : Type := A * A * A * A.

(** [np.column_stack((xs, ys, zs))] *)
Fixpoint column_stack (xs ys zs : list float) : array :=
  match xs, ys, zs with
  | x :: xs', y :: ys', z :: zs' => (x, y, z) :: column_stack xs' ys' zs'
  | _, _, _ => []
  end.

Section Convert.

(** [np.cos] and [utils.transform.km2pix] are not part of this file of the
    repository; they are taken as parameters. *)
Variable np_cos : float -> float.
Variable km2pix : float -> float -> float -> float.

(** Lines 152-166: the tuples [(long_deg, lat_deg, radii_km)] of one image.
    [llbd] is [P[llbd][id]], [dc] is [P[distcoeff][id][0]]. *)
Definition convert (dim : float) (llbd : bounds4 float) (dc : float)
    (coords : array) : array :=
  let '(ll0, ll1, ll2, ll3) := llbd in
  let km_to_pix := km2pix dim (ll3 - ll2)%float dc in
  let '(long_pix, lat_pix, radii_pix) := transpose coords in
  let radii_km := map (fun r => r / km_to_pix)%float radii_pix in
  let long_central := (Fin 0.5 * (ll0 + ll1))%float in
  let lat_central := (Fin 0.5 * (ll2 + ll3))%float in
  let deg_per_pix := ((ll3 - ll2) / dim / dc)%float in
  let lat_deg :=
    map (fun y => lat_central - deg_per_pix * (y - Fin 128))%float lat_pix in
  let long_deg :=
    zip_with (fun x lat =>
                long_central
                + (deg_per_pix * (x - Fin 128)
                   / np_cos (np_pi * lat / Fin 180)))%float
             long_pix lat_deg in
  column_stack long_deg lat_deg radii_km.

End Convert.

(** What the specification asks of the image centre: the midpoints of the
    longitude and latitude bounds. *)
Definition midpoint (a b : float) : float := (Fin 0.5 * (a + b))%float.

(* ================================================================== *)
(** ** The minimum radius handed to the template matcher *)
(* ================================================================== *)

(** [int(x)] on a float: truncation toward zero; an infinity raises
    [OverflowError] and NaN raises [ValueError]. *)
Definition Qtrunc (q : Q) : Z := Z.quot (Qnum q) (Z.pos (Qden q)).

Inductive exn : Type :=
  | FileMissing        (* [OSError]: no such file *)
  | OSError            (* any other I/O failure *)
  | KeyError
  | IndexError
  | ValueError
  | OverflowError
  | KeyboardInterrupt.

Inductive result (A : Type) : Type :=
  | Ok (a : A)
  | Raise (e : exn).
Arguments Ok {A} a.
Arguments Raise {A} e.

Definition py_int (x : float) : result Z :=
  match x with
  | Fin q => Ok (Qtrunc q)
  | Inf _ => Raise OverflowError
  | NaN => Raise ValueError
  end.

Definition float_of_Z (z : Z) : float := Fin (inject_Z z).

(** Lines 144-148: the value of the keyword argument [minrad]; [rawlen] is
    the difference of two integer pixel bounds. *)
Definition minrad_arg (rawlen : Z) : result Z :=
  if (rawlen <? 4000)%Z then
    match py_int ((Fin 3 / Fin 1000) * float_of_Z rawlen - Fin 3)%float with
    | Ok minrad => Ok (Z.max minrad 3)
    | Raise e => Raise e
    end
  else (* elif rawlen >= 4000 *) Ok 9%Z.

(** The hint in the words of the specification. *)
Definition minrad_spec (span : Z) : Z :=
  if (span <? 4000)%Z
  then Z.max 3 (Qtrunc ((3 / 1000) * inject_Z span - 3))
  else 9%Z.

(* ================================================================== *)
(** ** [extract_unique_craters] *)
(* ================================================================== *)

(** What the function does to the outside world, in order. *)
Inductive event : Type :=
  | Print (msg : string)
  | Call_get_model_preds
  | Call_template_match_t (i : nat) (minrad : Z)
  | Call_np_save (a : array).

(** Computations that may raise and that leave a trace of events. *)
Definition M (A : Type) : Type := list event -> result A * list event.

Definition ret {A : Type} (a : A) : M A := fun tr => (Ok a, tr).

Definition bind {A B : Type} (m : M A) (k : A -> M B) : M B :=
  fun tr =>
    match m tr with
    | (Ok a, tr') => k a tr'
    | (Raise e, tr') => (Raise e, tr')
    end.

Definition lift {A : Type} (r : result A) : M A := fun tr => (r, tr).

Definition emit (ev : event) : M unit := fun tr => (Ok tt, tr ++ [ev]).

(** [try: body  except: handler], with the bare [except:] of line 127:
    whatever [body] raises, [handler] runs. *)
Definition try_except {A : Type} (body handler : M A) : M A :=
  fun tr =>
    match body tr with
    | (Ok a, tr') => (Ok a, tr')
    | (Raise _, tr') => handler tr'
    end.

#[export] Instance M_ret : MRet M := @ret.
#[export] Instance M_bind : MBind M := fun A B k m => bind m k.

(** [xs[i]]; out of range raises. *)
Definition index {A : Type} (xs : list A) (i : nat) : result A :=
  match xs !! i with
  | Some x => Ok x
  | None => Raise IndexError
  end.

(** Lines 170-174. *)
Definition update_catalog (llt2 rt2 : float) (tuple_ craters_unique : array)
    : array :=
  if (0 <? length craters_unique)%nat
  then add_unique_craters llt2 rt2 tuple_ craters_unique
  else concatenate craters_unique tuple_.

Section Pipeline.

(** A prediction surface; opaque here. *)
Context {Pred : Type}.

Variable np_cos : float -> float.
Variable km2pix : float -> float -> float -> float.

(** The configuration [CP] and the collaborators: the files behind
    [CP['dir_preds']] and [CP['dir_data']], the model, the template
    matcher and [np.save].  Each call either returns or raises. *)
Record World : Type := {
  n_imgs : nat;                                   (* CP['n_imgs'] *)
  dim : float;                                    (* float(CP['dim']) *)
  llt2 : float;                                   (* CP['llt2'] *)
  rt2 : float;                                    (* CP['rt2'] *)
  (* h5py.File(CP['dir_preds'], 'r')[CP['datatype']] *)
  load_preds : result (list Pred);
  (* the body of get_model_preds(CP) *)
  generate_preds : result (list Pred);
  (* h5py.File(CP['dir_data'], 'r') *)
  open_data : result unit;
  (* P['pix_bounds'][get_id(i)] *)
  pix_bounds : nat -> result (bounds4 Z);
  (* P['longlat_bounds'][get_id(i)] *)
  longlat_bounds : nat -> result (bounds4 float);
  (* P['pix_distortion_coefficient'][get_id(i)][0] *)
  pix_distortion_coefficient : nat -> result float;
  (* tmt.template_match_t(pred, minrad=...) *)
  template_match_t : Pred -> Z -> result array;
  (* np.save(CP['dir_result'], ...) *)
  np_save : array -> result unit
}.

Variable w : World.

Definition get_model_preds : M (list Pred) :=
  _ ← emit Call_get_model_preds;
  preds ← lift (generate_preds w);
  _ ← emit (Print "Successfully generated and saved model predictions.");
  mret preds.

(** Lines 124-129. *)
Definition load_or_generate : M (list Pred) :=
  try_except
    (preds ← lift (load_preds w);
     _ ← emit (Print "Loaded model predictions successfully");
     mret preds)
    (_ ← emit (Print "Couldnt load model predictions, generating");
     get_model_preds).

(** The body of the loop over [i]; the state is
    [(craters_unique, N_matches_tot)]. *)
Definition process_image (preds : list Pred) (i : nat) (st : array * nat)
    : M (array * nat) :=
  let '(craters_unique, N_matches_tot) := st in
  pb ← lift (pix_bounds w i);
  let '(p0, _, p2, _) := pb in
  let rawlen := (p2 - p0)%Z in
  minrad ← lift (minrad_arg rawlen);
  pred ← lift (index preds i);
  _ ← emit (Call_template_match_t i minrad);
  coords ← lift (template_match_t w pred minrad);
  if (0 <? length coords)%nat then
    llbd ← lift (longlat_bounds w i);
    dc ← lift (pix_distortion_coefficient w i);
    let tuple_ := convert np_cos km2pix (dim w) llbd dc coords in
    mret (update_catalog (llt2 w) (rt2 w) tuple_ craters_unique,
          (N_matches_tot + length coords)%nat)
  else mret st.

Fixpoint run_images (preds : list Pred) (ids : list nat) (st : array * nat)
    : M (array * nat) :=
  match ids with
  | [] => mret st
  | i :: ids' =>
      st' ← process_image preds i st;
      run_images preds ids' st'
  end.

(** Lines 131-177: what follows the loading of the predictions. *)
Definition after_load (preds : list Pred) (craters_unique : array) : M array :=
  _ ← lift (open_data w);
  st ← run_images preds (seq 0 (n_imgs w)) (craters_unique, 0%nat);
  _ ← emit (Call_np_save (fst st));
  _ ← lift (np_save w (fst st));
  mret (fst st).

Definition extract_unique_craters (craters_unique : array) : M array :=
  preds ← load_or_generate;
  after_load preds craters_unique.

(** The run from an empty trace. *)
Definition run (craters_unique : array) : result array * list event :=
  extract_unique_craters craters_unique [].

Definition regenerates (craters_unique : array) : Prop :=
  In Call_get_model_preds (snd (run craters_unique)).

End Pipeline.

(* ================================================================== *)
(** ** Auxiliary notions used in the statements *)
(* ================================================================== *)

(** The invariant of a physical-space detection: finite coordinates and a
    radius that is finite and positive. *)
Definition well_formed (c : crater) : Prop :=
  is_finite (c_long c) /\ is_finite (c_lat c)
  /\ exists r : Q, c_rad c = Fin r /\ (0 < r)%Q.

(** Merging a sequence of batches, one after the other. *)
Definition merge_all (tl tr : float) (batches : list array) (catalog : array)
    : array :=
  fold_left (fun cat batch => add_unique_craters tl tr batch cat)
            batches catalog.

Definition q3 (a b c : Q) : crater := (Fin a, Fin b, Fin c).

(** The store [h] still holds every array of the store [h0]. *)
Definition extends (h0 h : heap) : Prop :=
  forall l a, h0 !! l = Some a -> h !! l = Some a.

(** *** Sample data

    Four craters of radius 1 km on the equator, at longitudes 0, 0.05,
    0.07 and 0.075 degrees; three craters at the origin of radius 10, 13
    and 16 km; a crater far from all of them. *)
Definition east_0 : crater := q3 0 0 1.
Definition east_50 : crater := q3 0.05 0 1.
Definition east_70 : crater := q3 0.07 0 1.
Definition east_75 : crater := q3 0.075 0 1.
Definition rad_10 : crater := q3 0 0 10.
Definition rad_13 : crater := q3 0 0 13.
Definition rad_16 : crater := q3 0 0 16.
Definition far_away : crater := q3 10 10 5.

Definition position_batches : list array :=
  [[east_0]; [east_50]; [east_70; east_75]].
Definition radius_batches : list array :=
  [[rad_10]; [rad_13]; [rad_16; rad_16]].

(** A store with a batch at address 1 and a catalog at address 2. *)
Definition sample_heap : heap :=
  <[1%positive := [east_50; east_70]]> (<[2%positive := [east_0]]> ∅).

(** A 512-pixel image over longitudes 10..20 and latitudes 30..40, no
    distortion, with one detection at its centre pixel (256, 256). *)
Definition wide_dim : float := Fin 512.
Definition wide_bounds : bounds4 float := (Fin 10, Fin 20, Fin 30, Fin 40).
Definition wide_centre : array := [q3 256 256 5].

(** The failure semantics as the specification words it: predictions are
    regenerated exactly when the predictions file is missing, and any other
    failure of the load reaches the caller. *)
Definition regenerates_only_when_missing {Pred : Type}
    (np_cos : float -> float) (km2pix : float -> float -> float -> float)
    (w : @World Pred) (craters_unique : array) : Prop :=
  (regenerates np_cos km2pix w craters_unique
   <-> load_preds w = Raise FileMissing)
  /\ (forall e : exn, e <> FileMissing -> load_preds w = Raise e ->
        fst (run np_cos km2pix w craters_unique) = Raise e).

(** A run over no image whose predictions file exists but holds no dataset
    under [CP['datatype']]: the load raises [KeyError]. *)
Definition world_missing_dataset : @World unit := {|
  n_imgs := 0;
  dim := Fin 256;
  llt2 := Fin 1.8;
  rt2 := Fin 1;
  load_preds := Raise KeyError;
  generate_preds := Ok [];
  open_data := Ok tt;
  pix_bounds := fun _ => Raise KeyError;
  longlat_bounds := fun _ => Raise KeyError;
  pix_distortion_coefficient := fun _ => Raise KeyError;
  template_match_t := fun _ _ => Ok [];
  np_save := fun _ => Ok tt
|}.

(** Stand-ins for [np.cos] and [km2pix] in runs that never reach them. *)
Definition const_one (_ : float) : float := Fin 1.
Definition const_one3 (_ _ _ : float) : float := Fin 1.

(** Two 6000-pixel crops of the same region, each with one detection of
    radius 10 at pixel (128, 128); the predictions file loads. *)
Definition world_two_images : @World unit := {|
  n_imgs := 2;
  dim := Fin 256;
  llt2 := Fin 1.8;
  rt2 := Fin 1;
  load_preds := Ok [tt; tt];
  generate_preds := Raise OSError;
  open_data := Ok tt;
  pix_bounds := fun _ => Ok (0, 0, 6000, 6000)%Z;
  longlat_bounds := fun _ => Ok (Fin 10, Fin 20, Fin 30, Fin 40);
  pix_distortion_coefficient := fun _ => Ok (Fin 1);
  template_match_t := fun _ _ => Ok [q3 128 128 10];
  np_save := fun _ => Ok tt
|}.

(** The same run when the pixel bounds of the images cannot be read. *)
Definition world_no_pix_bounds : @World unit := {|
  n_imgs := 2;
  dim := Fin 256;
  llt2 := Fin 1.8;
  rt2 := Fin 1;
  load_preds := Ok [tt; tt];
  generate_preds := Raise OSError;
  open_data := Ok tt;
  pix_bounds := fun _ => Raise KeyError;
  longlat_bounds := fun _ => Ok (Fin 10, Fin 20, Fin 30, Fin 40);
  pix_distortion_coefficient := fun _ => Ok (Fin 1);
  template_match_t := fun _ _ => Ok [q3 128 128 10];
  np_save := fun _ => Ok tt
|}.

(** The run of [world_two_images] when the longitude/latitude bounds of
    the images cannot be read. *)
Definition world_no_longlat_bounds : @World unit := {|
  n_imgs := 2;
  dim := Fin 256;
  llt2 := Fin 1.8;
  rt2 := Fin 1;
  load_preds := Ok [tt; tt];
  generate_preds := Raise OSError;
  open_data := Ok tt;
  pix_bounds := fun _ => Ok (0, 0, 6000, 6000)%Z;
  longlat_bounds := fun _ => Raise KeyError;
  pix_distortion_coefficient := fun _ => Ok (Fin 1);
  template_match_t := fun _ _ => Ok [q3 128 128 10];
  np_save := fun _ => Ok tt
|}.

(** The event is a call of the template matcher. *)
Definition is_template_call (ev : event) : Prop :=
  exists i m, ev = Call_template_match_t i m.

(** A float that is not negative: a rational [>= 0], [+inf], or NaN. *)
Definition nonneg (x : float) : Prop :=
  match x with
  | Fin a => (0 <= a)%Q
  | Inf s => s = false
  | NaN => True
  end.

(** A threshold below which no such float lies: NaN, or at most 0. *)
Definition not_positive (t : float) : Prop :=
  t = NaN \/ (t <=? Fin 0)%float = true.

(** The radius of the detection is a finite zero. *)
Definition zero_radius (c : crater) : Prop :=
  exists r : Q, c_rad c = Fin r /\ (r == 0)%Q.





(** The world [w] in which loading the predictions has the outcome [r];
    everything else is as in [w]. *)
Definition with_loaded {Pred : Type} (w : @World Pred)
    (r : result (list Pred)) : @World Pred := {|
  n_imgs := n_imgs w;
  dim := dim w;
  llt2 := llt2 w;
  rt2 := rt2 w;
  load_preds := r;
  generate_preds := generate_preds w;
  open_data := open_data w;
  pix_bounds := pix_bounds w;
  longlat_bounds := longlat_bounds w;
  pix_distortion_coefficient := pix_distortion_coefficient w;
  template_match_t := template_match_t w;
  np_save := np_save w
|}.

(** A radius from which [(r * km_to_deg)**2] is a non-zero binary64 number:
    the square underflows to zero only below about 1e-160. *)
Definition min_radius : Q := 1e-100.

(** A detection with a finite position and a finite radius of at least
    [min_radius]. *)
Definition sizeable (c : crater) : Prop :=
  is_finite (c_long c) /\ is_finite (c_lat c)
  /\ exists r : Q, c_rad c = Fin r /\ (min_radius <= r)%Q.

(** A geometry for which [deg_per_pix] and the midpoints are finite
    binary64 numbers: bounds within 1000 degrees, at least one pixel, and
    a distortion coefficient of at least 1e-100. *)
Definition geometry_in_range (dim lo0 lo1 la0 la1 dc : Q) : Prop :=
  (1 <= dim)%Q /\ (1e-100 <= dc)%Q
  /\ (- (1000) <= lo0 <= 1000)%Q /\ (- (1000) <= lo1 <= 1000)%Q
  /\ (- (1000) <= la0 <= 1000)%Q /\ (- (1000) <= la1 <= 1000)%Q.

(** The re-merge property with no condition on the candidates but their
    presence in the catalog. *)
Definition remerge_keeps_size : Prop :=
  forall (tl tr : float) (batch catalog : array),
    is_positive tl -> is_positive tr ->
    Forall (fun c => In c catalog) batch ->
    length (add_unique_craters tl tr batch catalog) = length catalog.

(* ================================================================== *)
(** * Properties *)
(* ================================================================== *)

(** ** Comparisons of floats *)

Lemma Qltb_lt (a b : Q) : Qltb a b = true <-> (a < b)%Q.
Proof.
  unfold Qltb. rewrite negb_true_iff.
  split.
  - intros H. apply Qnot_le_lt. intros Hle.
    apply Qle_bool_iff in Hle. congruence.
  - intros H. destruct (Qle_bool b a) eqn:E; [|reflexivity].
    apply Qle_bool_iff in E. lra.
Qed.

Lemma Qis0_true (a : Q) : Qis0 a = true <-> (a == 0)%Q.
Proof. unfold Qis0. apply Qeq_bool_iff. Qed.

Lemma Qis0_false (a : Q) : ~ (a == 0)%Q -> Qis0 a = false.
Proof.
  intros H. destruct (Qis0 a) eqn:E; [|reflexivity].
  apply Qis0_true in E. contradiction.
Qed.

(** [<] followed by [<=] is [<], NaN and the infinities included. *)
Lemma ltb_leb_trans (x a b : float) :
  (x <? a)%float = true -> (a <=? b)%float = true -> (x <? b)%float = true.
Proof.
  destruct x as [x|[]|], a as [a|[]|], b as [b|[]|]; simpl;
    try congruence; try reflexivity.
  rewrite !Qltb_lt, Qle_bool_iff. lra.
Qed.

(** A value that is numerically zero is below every positive threshold. *)
Lemma zero_ltb_positive (q : Q) (t : float) :
  (q == 0)%Q -> is_positive t -> (Fin q <? t)%float = true.
Proof.
  unfold is_positive. destruct t as [t|[]|]; simpl; try congruence.
  rewrite !Qltb_lt. lra.
Qed.

Lemma km_to_deg_finite : exists k : Q, km_to_deg = Fin k /\ ~ (k == 0)%Q.
Proof.
  eexists. split.
  - vm_compute. reflexivity.
  - intros H. vm_compute in H. discriminate.
Qed.

(** ** The list view of [add_unique_craters] *)

Section MergeFacts.

Variables tl tr : float.

Lemma np_where_from_none (i : nat) (bs : list bool) :
  (length (np_where_from i bs) =? 0)%nat = negb (existsb id bs).
Proof.
  revert i. induction bs as [|b bs IH]; intros i; simpl; [reflexivity|].
  destruct b; simpl; [reflexivity | apply IH].
Qed.

(** The mask keeps the radii of the longlat-near entries. *)
Lemma mask_near (lo la r : float) (catalog : array) :
  mask (map c_rad catalog)
       (map (fun d => d <? tl)%float
            (zip_with (fun L B => (sq (L - lo) + sq (B - la))
                                  / sq (r * km_to_deg))%float
                      (map c_long catalog) (map c_lat catalog)))
  = map c_rad
        (List.filter (fun e => diff_longlat_of e (lo, la, r) <? tl)%float
                     catalog).
Proof.
  induction catalog as [|e cat IH]; simpl; [reflexivity|].
  rewrite IH.
  change ((sq (c_long e - lo) + sq (c_lat e - la)) / sq (r * km_to_deg))%float
    with (diff_longlat_of e (lo, la, r)).
  destruct (diff_longlat_of e (lo, la, r) <? tl)%float; reflexivity.
Qed.

Lemma existsb_near (lo la r : float) (catalog : array) :
  existsb id
    (map (fun d => d <? tr)%float
       (map (fun R => sq ((R - r) / r))%float
          (map c_rad
             (List.filter (fun e => diff_longlat_of e (lo, la, r) <? tl)%float
                          catalog))))
  = is_duplicate tl tr catalog (lo, la, r).
Proof.
  unfold is_duplicate.
  induction catalog as [|e cat IH]; simpl; [reflexivity|].
  unfold matches at 1.
  destruct (diff_longlat_of e (lo, la, r) <? tl)%float; simpl;
    rewrite IH; reflexivity.
Qed.

(** The loop body appends exactly the candidates that no entry matches. *)
Lemma is_appended_is_new (catalog : array) (c : crater) :
  is_appended tl tr (map c_long catalog) (map c_lat catalog)
              (map c_rad catalog) c
  = is_new tl tr catalog c.
Proof.
  destruct c as [[lo la] r]. unfold is_appended, is_new.
  rewrite mask_near. unfold np_where.
  rewrite np_where_from_none, existsb_near.
  rewrite <- existsb_near.
  destruct (List.filter _ catalog); reflexivity.
Qed.

Lemma fold_merge_step (Long Lat Rad : list float) (craters acc : array) :
  fold_left (merge_step tl tr Long Lat Rad) craters acc
  = acc ++ List.filter (is_appended tl tr Long Lat Rad) craters.
Proof.
  revert acc. induction craters as [|c cs IH]; intros acc; simpl.
  - symmetry. apply app_nil_r.
  - rewrite IH. unfold merge_step, vstack.
    destruct (is_appended tl tr Long Lat Rad c); simpl.
    + rewrite <- app_assoc. reflexivity.
    + reflexivity.
Qed.

Lemma add_unique_craters_filter (craters catalog : array) :
  add_unique_craters tl tr craters catalog
  = catalog ++ List.filter (is_new tl tr catalog) craters.
Proof.
  unfold add_unique_craters, transpose. rewrite fold_merge_step.
  f_equal. apply filter_ext. intros c. apply is_appended_is_new.
Qed.

Lemma is_duplicate_iff (catalog : array) (c : crater) :
  is_duplicate tl tr catalog c = true
  <-> exists e, In e catalog
        /\ (diff_longlat_of e c <? tl)%float = true
        /\ (diff_rad_of e c <? tr)%float = true.
Proof.
  unfold is_duplicate. rewrite existsb_exists.
  split; intros [e [Hin H]]; exists e; split; try assumption.
  - unfold matches in H. apply andb_true_iff in H. exact H.
  - unfold matches. apply andb_true_iff. exact H.
Qed.

Lemma filter_sublist {A : Type} (f : A -> bool) (l : list A) :
  sublist (List.filter f l) l.
Proof.
  induction l as [|x l IH]; simpl.
  - constructor.
  - destruct (f x); [apply sublist_skip | apply sublist_cons]; exact IH.
Qed.

End MergeFacts.

(** ** The matching rule *)

(** C1.  [add_unique_craters] returns the catalog followed by the
    candidates of the batch that it keeps, in batch order, and it drops a
    candidate exactly when some entry [(Long, Lat, Rad)] of the catalog it
    was given passes both tests,
    [((Long-lo)^2 + (Lat-la)^2) / (r*km_to_deg)^2 < thresh_longlat2] and
    [((Rad-r)/r)^2 < thresh_rad2], with [r] the radius of the candidate.
    A candidate with no longlat-near entry, or with longlat-near entries
    that all fail the radius test, is appended. *)
Theorem merge_discards_iff_match (tl tr : float) (craters catalog : array) :
  add_unique_craters tl tr craters catalog
  = catalog ++ List.filter (fun c => negb (is_duplicate tl tr catalog c)) craters
  /\ (forall c : crater,
        is_duplicate tl tr catalog c = true
        <-> exists e, In e catalog
              /\ (diff_longlat_of e c <? tl)%float = true
              /\ (diff_rad_of e c <? tr)%float = true)
  /\ (forall c : crater,
        add_unique_craters tl tr [c] catalog
        = if is_duplicate tl tr catalog c then catalog else catalog ++ [c])
  /\ (forall c : crater,
        (forall e, In e catalog ->
           (diff_longlat_of e c <? tl)%float = true ->
           (diff_rad_of e c <? tr)%float = false) ->
        add_unique_craters tl tr [c] catalog = catalog ++ [c]).
Proof.
  split; [apply add_unique_craters_filter|].
  split; [intros c; apply is_duplicate_iff|].
  assert (Hone : forall c, add_unique_craters tl tr [c] catalog
            = if is_duplicate tl tr catalog c then catalog else catalog ++ [c]).
  { intros c. rewrite add_unique_craters_filter. simpl. unfold is_new.
    destruct (is_duplicate tl tr catalog c); simpl;
      [apply app_nil_r | reflexivity]. }
  split; [exact Hone|].
  intros c Hnone. rewrite Hone.
  destruct (is_duplicate tl tr catalog c) eqn:E; [|reflexivity].
  apply is_duplicate_iff in E. destruct E as [e [Hin [Hll Hrad]]].
  rewrite (Hnone e Hin Hll) in Hrad. discriminate.
Qed.

(** C4.  The decision for a candidate is taken against the catalog that
    was passed in, whatever the earlier candidates of the same batch did;
    so two near-duplicate candidates of one batch that match no entry of
    the catalog are both appended, although the second would have been
    dropped had the first been in the catalog already. *)
Theorem decision_uses_snapshot :
  (forall (tl tr : float) (earlier : array) (c : crater) (catalog : array),
     add_unique_craters tl tr (earlier ++ [c]) catalog
     = add_unique_craters tl tr earlier catalog
       ++ (if is_duplicate tl tr catalog c then [] else [c]))
  /\ (let tl := Fin 1 in
      let tr := Fin 1 in
      is_duplicate tl tr [far_away] east_70 = false
      /\ is_duplicate tl tr [far_away] east_75 = false
      /\ matches tl tr east_75 east_70 = true
      /\ add_unique_craters tl tr [east_70; east_75] [far_away]
         = [far_away; east_70; east_75]
      /\ add_unique_craters tl tr [east_75] [far_away; east_70]
         = [far_away; east_70]).
Proof.
  split.
  - intros tl tr earlier c catalog.
    rewrite !add_unique_craters_filter, List.filter_app, app_assoc.
    simpl. unfold is_new.
    destruct (is_duplicate tl tr catalog c); reflexivity.
  - vm_compute. repeat split; reflexivity.
Qed.

(** C7.  A batch merged into the empty catalog comes back unchanged: the
    same [N] rows in the same order, through [add_unique_craters] as well
    as through the [else] branch of the pipeline. *)
Theorem empty_catalog_bootstrap (tl tr : float) (batch : array) :
  add_unique_craters tl tr batch [] = batch
  /\ update_catalog tl tr batch [] = batch
  /\ length (add_unique_craters tl tr batch []) = length batch.
Proof.
  assert (H : add_unique_craters tl tr batch [] = batch).
  { rewrite add_unique_craters_filter. simpl.
    induction batch as [|c cs IH]; simpl; [reflexivity|].
    rewrite IH. reflexivity. }
  split; [exact H|]. split; [reflexivity|]. rewrite H. reflexivity.
Qed.

(** C8.  The result of a merge starts with the catalog it was given, row
    for row; what follows is a subsequence of the batch in batch order; the
    size lies between that of the catalog and that of the catalog plus
    the batch. *)
Theorem merge_extends_catalog (tl tr : float) (batch catalog : array) :
  exists suffix : array,
    add_unique_craters tl tr batch catalog = catalog ++ suffix
    /\ catalog `prefix_of` add_unique_craters tl tr batch catalog
    /\ sublist suffix batch
    /\ (length catalog <= length (add_unique_craters tl tr batch catalog)
        <= length catalog + length batch)%nat.
Proof.
  exists (List.filter (is_new tl tr catalog) batch).
  rewrite add_unique_craters_filter.
  pose proof (filter_sublist (is_new tl tr catalog) batch) as Hs.
  split; [reflexivity|].
  split; [apply prefix_app_r; reflexivity|].
  split; [exact Hs|].
  rewrite length_app. apply sublist_length in Hs. lia.
Qed.

(** ** Re-merging and thresholds *)

Lemma min_radius_pos : (0 < min_radius)%Q.
Proof. reflexivity. Qed.

Lemma sizeable_well_formed (c : crater) : sizeable c -> well_formed c.
Proof.
  intros [Hlo [Hla [r [Hr Hmin]]]]. split; [exact Hlo|]. split; [exact Hla|].
  exists r. split; [exact Hr|]. pose proof min_radius_pos. lra.
Qed.

(** A sizeable detection matches itself under positive thresholds: both
    differences are zero divided by a number that is not zero. *)
Lemma matches_self (tl tr : float) (c : crater) :
  is_positive tl -> is_positive tr -> sizeable c ->
  matches tl tr c c = true.
Proof.
  intros Htl Htr Hsz.
  destruct (sizeable_well_formed c Hsz) as [Hlo [Hla [r [Hr Hpos]]]].
  destruct c as [[lo la] rad]. unfold c_long, c_lat, c_rad in *.
  simpl in Hlo, Hla, Hr. subst rad.
  destruct lo as [a| |]; [|contradiction..].
  destruct la as [b| |]; [|contradiction..].
  destruct km_to_deg_finite as [k [Hk Hk0]].
  unfold matches, diff_longlat_of, diff_rad_of, c_long, c_lat, c_rad.
  simpl fst; simpl snd. rewrite Hk.
  assert (Hr0 : ~ (r == 0)%Q) by lra.
  assert (Hden : ~ (r * k * (r * k) == 0)%Q).
  { intros H. apply Qmult_integral in H. destruct H as [H|H];
      apply Qmult_integral in H; tauto. }
  apply andb_true_iff. split.
  - unfold sq, sub, mul, add, opp, div.
    rewrite (Qis0_false _ Hden).
    apply zero_ltb_positive; [|exact Htl]. field. tauto.
  - unfold sq, sub, mul, add, opp, div.
    rewrite (Qis0_false _ Hr0).
    apply zero_ltb_positive; [|exact Htr]. field. exact Hr0.
Qed.

Lemma filter_none {A : Type} (f : A -> bool) (l : list A) :
  Forall (fun x => f x = false) l -> List.filter f l = [].
Proof.
  induction 1 as [|x l Hx _ IH]; simpl; [reflexivity|].
  rewrite Hx. exact IH.
Qed.

(** C6, as amended.  When every candidate of the batch already occurs in
    the catalog and is sizeable (finite position, finite radius of at least
    [min_radius], so that the normalisation [(r * km_to_deg)**2] is not
    zero), and the thresholds are positive, the merge returns the catalog
    as it was; its size does not change. *)
Theorem idempotent_remerge (tl tr : float) (batch catalog : array) :
  is_positive tl -> is_positive tr ->
  Forall (fun c => In c catalog /\ sizeable c) batch ->
  add_unique_craters tl tr batch catalog = catalog
  /\ length (add_unique_craters tl tr batch catalog) = length catalog.
Proof.
  intros Htl Htr Hall.
  assert (H : add_unique_craters tl tr batch catalog = catalog).
  { rewrite add_unique_craters_filter, filter_none; [apply app_nil_r|].
    eapply Forall_impl; [exact Hall|].
    intros c [Hin Hsz]. unfold is_new. apply negb_false_iff.
    apply is_duplicate_iff. exists c. split; [exact Hin|].
    pose proof (matches_self tl tr c Htl Htr Hsz) as Hm.
    unfold matches in Hm. apply andb_true_iff in Hm. exact Hm. }
  split; [exact H | rewrite H; reflexivity].
Qed.

Lemma idempotent_remerge_witness :
  add_unique_craters (Fin 1.8) (Fin 1) [east_50; east_0] [east_0; east_50]
  = [east_0; east_50]
  /\ length (add_unique_craters (Fin 1.8) (Fin 1) [east_50; east_0]
                                [east_0; east_50])
     = length [east_0; east_50].
Proof.
  apply (idempotent_remerge (Fin 1.8) (Fin 1)); [reflexivity..|].
  repeat constructor; simpl; try tauto;
    (exists 1%Q; split; [reflexivity | unfold min_radius; discriminate]).
Defined.

(** C6, as stated, fails.  A candidate of radius 0 that is a row of the
    catalog is appended again: its position test is 0/0, and NaN is not
    below the threshold. *)
Lemma remerge_of_zero_radius_grows : ~ remerge_keeps_size.
Proof.
  intros H.
  specialize (H (Fin 1) (Fin 1) [q3 0 0 0] [q3 0 0 0] eq_refl eq_refl).
  assert (Hin : Forall (fun c => In c [q3 0 0 0]) [q3 0 0 0]).
  { repeat constructor. }
  specialize (H Hin). vm_compute in H. discriminate.
Qed.

Lemma filter_length_le {A : Type} (f g : A -> bool) (l : list A) :
  (forall x, f x = true -> g x = true) ->
  (length (List.filter f l) <= length (List.filter g l))%nat.
Proof.
  intros Hfg. induction l as [|x l IH]; simpl; [lia|].
  destruct (f x) eqn:Ef.
  - rewrite (Hfg x Ef). simpl. lia.
  - destruct (g x); simpl; lia.
Qed.

Lemma is_duplicate_mono (tl tl' tr tr' : float) (catalog : array) (c : crater) :
  (tl <=? tl')%float = true -> (tr <=? tr')%float = true ->
  is_duplicate tl tr catalog c = true -> is_duplicate tl' tr' catalog c = true.
Proof.
  intros Hl Hr. rewrite !is_duplicate_iff.
  intros [e [Hin [H1 H2]]]. exists e. split; [exact Hin|]. split.
  - eapply ltb_leb_trans; eassumption.
  - eapply ltb_leb_trans; eassumption.
Qed.

(** C3, as amended.  For one merge, with the batch and the catalog fixed,
    raising one threshold or both never makes the result larger. *)
Theorem single_merge_monotone (tl tl' tr tr' : float) (batch catalog : array) :
  (tl <=? tl')%float = true -> (tr <=? tr')%float = true ->
  (length (add_unique_craters tl' tr' batch catalog)
   <= length (add_unique_craters tl tr batch catalog))%nat.
Proof.
  intros Hl Hr. rewrite !add_unique_craters_filter, !length_app.
  apply Nat.add_le_mono_l, filter_length_le.
  intros c. unfold is_new. rewrite !negb_true_iff.
  intros Hnew. destruct (is_duplicate tl tr catalog c) eqn:E; [|reflexivity].
  rewrite (is_duplicate_mono tl tl' tr tr' catalog c Hl Hr E) in Hnew.
  discriminate.
Qed.

Lemma single_merge_monotone_witness :
  (length (add_unique_craters (Fin 4) (Fin 1) [east_50; east_70] [east_0])
   <= length (add_unique_craters (Fin 1) (Fin 1) [east_50; east_70] [east_0]))%nat.
Proof.
  apply single_merge_monotone; reflexivity.
Defined.

Lemma sample_batches_sizes :
  length (merge_all (Fin 1) (Fin 1) position_batches []) = 2%nat
  /\ length (merge_all (Fin 4) (Fin 1) position_batches []) = 3%nat
  /\ length (merge_all (Fin 1) (Fin 0.04) radius_batches []) = 2%nat
  /\ length (merge_all (Fin 1) (Fin 0.09) radius_batches []) = 3%nat.
Proof.
  vm_compute. repeat split; reflexivity.
Qed.

(** C3, as stated, fails.  Over the three batches of [position_batches],
    merged from the empty catalog, raising [thresh_longlat2] from 1 to 4
    takes the final catalog from 2 entries to 3; over [radius_batches],
    raising [thresh_rad2] from 0.04 to 0.09 does the same. *)
Lemma threshold_monotonicity_fails :
  ~ (forall (tl tl' tr : float) (batches : list array),
       (tl <=? tl')%float = true ->
       (length (merge_all tl' tr batches [])
        <= length (merge_all tl tr batches []))%nat)
  /\ ~ (forall (tl tr tr' : float) (batches : list array),
          (tr <=? tr')%float = true ->
          (length (merge_all tl tr' batches [])
           <= length (merge_all tl tr batches []))%nat).
Proof.
  destruct sample_batches_sizes as [H1 [H2 [H3 H4]]].
  split; intros H.
  - specialize (H (Fin 1) (Fin 4) (Fin 1) position_batches eq_refl).
    rewrite H1, H2 in H. lia.
  - specialize (H (Fin 1) (Fin 0.04) (Fin 0.09) radius_batches eq_refl).
    rewrite H3, H4 in H. lia.
Qed.

(** ** Frame: the arguments of [add_unique_craters] are not written to *)

Lemma indices_of_batch (pre B : array) :
  Forall2 (fun j cj => (pre ++ B) !! j = Some cj)
          (seq (length pre) (length B)) B.
Proof.
  revert pre. induction B as [|c B IH]; intros pre; simpl; constructor.
  - apply list_lookup_middle. reflexivity.
  - specialize (IH (pre ++ [c])).
    rewrite length_app, <- app_assoc in IH. simpl in IH.
    rewrite Nat.add_1_r in IH. exact IH.
Qed.

Section Frame.

Variables tl tr : float.
Variables (h0 : heap) (b c : loc) (B C : array).
Hypothesis Hb : h0 !! b = Some B.
Hypothesis Hc : h0 !! c = Some C.

Lemma extends_alloc (h : heap) (a : array) :
  extends h0 h -> extends h0 (snd (alloc h a)) /\ h0 !! fst (alloc h a) = None.
Proof using Type.
  intros Hext. unfold alloc. simpl.
  assert (Hfresh : h !! fresh (dom h) = None).
  { apply not_elem_of_dom. apply is_fresh. }
  split.
  - intros l x Hl. rewrite lookup_insert_ne; [apply Hext; exact Hl|].
    intros Heq. rewrite Heq, (Hext _ _ Hl) in Hfresh. discriminate.
  - destruct (h0 !! fresh (dom h)) eqn:E; [|reflexivity].
    rewrite (Hext _ _ E) in Hfresh. discriminate.
Qed.

Lemma merge_loop_spec (js : list nat) (cs : array) :
  Forall2 (fun j cj => B !! j = Some cj) js cs ->
  forall (cu : loc) (h : heap) (acc : array),
    extends h0 h -> h !! cu = Some acc ->
    exists r h',
      merge_loop tl tr b c js cu h = Some (r, h')
      /\ extends h0 h'
      /\ h' !! r
         = Some (fold_left (merge_step tl tr (map c_long C) (map c_lat C)
                                       (map c_rad C)) cs acc)
      /\ ((r = cu /\ h' = h) \/ h0 !! r = None).
Proof using Hb Hc.
  induction 1 as [|j cj js cs Hj _ IH]; intros cu h acc Hext Hcu.
  - exists cu, h. simpl. repeat split; auto.
  - simpl. rewrite (Hext _ _ Hb). simpl. rewrite Hj. simpl.
    rewrite (Hext _ _ Hc). simpl.
    unfold merge_step at 2.
    destruct (is_appended tl tr _ _ _ cj).
    + rewrite Hcu. simpl.
      destruct (extends_alloc h (vstack acc cj) Hext) as [Hext' Hnew].
      unfold alloc in *. simpl in Hext', Hnew.
      destruct (IH (fresh (dom h)) (<[fresh (dom h) := vstack acc cj]> h)
                   (vstack acc cj) Hext' (lookup_insert_eq _ _ _))
        as [r [h' [Hrun [He [Hr Hor]]]]].
      exists r, h'. repeat split; try assumption.
      right. destruct Hor as [[-> _]|Hor]; assumption.
    + destruct (IH cu h acc Hext Hcu) as [r [h' [Hrun [He [Hr Hor]]]]].
      exists r, h'. repeat split; assumption.
Qed.

End Frame.

(** C10.  A call on two arrays of the store returns; afterwards every
    array that was in the store, the batch and the catalog among them,
    holds the rows it held before.  The object returned holds the merged
    catalog; it is the catalog object itself when nothing was appended,
    and otherwise an object that did not exist before the call. *)
Theorem arguments_not_mutated (tl tr : float) (h : heap) (b c : loc)
    (B C : array) :
  h !! b = Some B -> h !! c = Some C ->
  exists (r : loc) (h' : heap),
    add_unique_craters_st tl tr b c h = Some (r, h')
    /\ h' !! b = Some B /\ h' !! c = Some C
    /\ (forall l a, h !! l = Some a -> h' !! l = Some a)
    /\ h' !! r = Some (add_unique_craters tl tr B C)
    /\ ((r = c /\ h' = h) \/ h !! r = None)
    /\ ((length C < length (add_unique_craters tl tr B C))%nat ->
        h !! r = None).
Proof.
  intros Hb Hc.
  destruct (merge_loop_spec tl tr h b c B C Hb Hc (seq 0 (length B)) B
              (indices_of_batch [] B) c h C (fun _ _ H => H) Hc)
    as [r [h' [Hrun [Hext [Hr Hor]]]]].
  exists r, h'.
  unfold add_unique_craters_st, array in *. rewrite Hb, Hc. simpl.
  split; [exact Hrun|].
  split; [apply Hext; exact Hb|].
  split; [apply Hext; exact Hc|].
  split; [exact Hext|].
  split; [exact Hr|].
  split; [exact Hor|].
  intros Hlen. destruct Hor as [[-> ->]|Hor]; [|exact Hor].
  rewrite Hc in Hr. injection Hr as Hr.
  assert (Hsame : add_unique_craters tl tr B C = C) by (symmetry; exact Hr).
  rewrite Hsame in Hlen. lia.
Qed.

Lemma arguments_not_mutated_witness :
  exists (r : loc) (h' : heap),
    add_unique_craters_st (Fin 1) (Fin 1) 1%positive 2%positive sample_heap
    = Some (r, h')
    /\ h' !! 1%positive = Some [east_50; east_70]
    /\ h' !! 2%positive = Some [east_0]
    /\ (forall l a, sample_heap !! l = Some a -> h' !! l = Some a)
    /\ h' !! r
       = Some (add_unique_craters (Fin 1) (Fin 1) [east_50; east_70] [east_0])
    /\ ((r = 2%positive /\ h' = sample_heap) \/ sample_heap !! r = None)
    /\ ((length [east_0]
         < length (add_unique_craters (Fin 1) (Fin 1) [east_50; east_70]
                                      [east_0]))%nat ->
        sample_heap !! r = None).
Proof.
  apply (arguments_not_mutated (Fin 1) (Fin 1) sample_heap 1%positive
           2%positive [east_50; east_70] [east_0]); reflexivity.
Defined.

(** ** The image centre *)

(** C2 fails on the code when [dim] is not 256: the offsets are taken from
    pixel 128, not from [dim/2].  On the 512-pixel image [wide_bounds] the
    detection at the centre pixel (256, 256) comes out at latitude 32.5,
    while the midpoint of the latitude bounds is 35. *)
Theorem centre_of_wide_image (np_cos : float -> float)
    (km2pix : float -> float -> float -> float) :
  exists lat : float,
    map c_lat (convert np_cos km2pix wide_dim wide_bounds (Fin 1) wide_centre)
    = [lat]
    /\ (lat =? Fin 32.5)%float = true
    /\ (midpoint (Fin 30) (Fin 40) =? Fin 35)%float = true
    /\ (lat =? midpoint (Fin 30) (Fin 40))%float = false.
Proof.
  eexists. split; [vm_compute; reflexivity|].
  vm_compute. repeat split; reflexivity.
Qed.

(** X15.  What the code does guarantee: for a geometry in range (bounds
    within 1000 degrees, [dim >= 1], [dc >= 1e-100], so that [deg_per_pix]
    and the midpoints are finite) and a cosine that is finite and not zero
    on finite angles, the detection at pixel (128, 128) gets the central
    longitude and latitude, whatever [dim] is. *)
Lemma pixel_128_is_centre (np_cos : float -> float)
    (km2pix : float -> float -> float -> float)
    (dim lo0 lo1 la0 la1 dc : Q) (r : float) :
  geometry_in_range dim lo0 lo1 la0 la1 dc ->
  (forall q : Q, exists c : Q, np_cos (Fin q) = Fin c /\ ~ (c == 0)%Q) ->
  exists long lat rk : float,
    convert np_cos km2pix (Fin dim) (Fin lo0, Fin lo1, Fin la0, Fin la1)
            (Fin dc) [(Fin 128, Fin 128, r)]
    = [(long, lat, rk)]
    /\ (long =? midpoint (Fin lo0) (Fin lo1))%float = true
    /\ (lat =? midpoint (Fin la0) (Fin la1))%float = true.
Proof.
  intros [Hdim1 [Hdc1 _]] Hcos.
  assert (Hdim : ~ (dim == 0)%Q) by lra.
  assert (Hdc : ~ (dc == 0)%Q).
  { assert (H0 : (0 < 1e-100)%Q) by reflexivity.
    set (m := 1e-100%Q) in *. lra. }
  unfold convert, transpose, np_pi, midpoint, sub, add, opp, div, mul.
  rewrite (Qis0_false _ Hdim), (Qis0_false _ Hdc).
  change (Qis0 180) with false. cbn [map zip_with column_stack c_long c_lat c_rad fst snd].
  match goal with
  | |- context [np_cos (Fin ?q)] => destruct (Hcos q) as [c [Hc Hc0]]; rewrite Hc
  end.
  rewrite (Qis0_false _ Hc0).
  eexists _, _, _. split; [reflexivity|].
  split; apply Qeq_bool_iff; field; tauto.
Qed.

(** ** The minimum radius and the failure semantics of the pipeline *)

Lemma Qtrunc_linear (z : Z) :
  Qtrunc ((3 / 1000) * inject_Z z - 3) = ((3 * z - 3000) ÷ 1000)%Z.
Proof.
  unfold Qtrunc. cbn. f_equal. lia.
Qed.

Lemma minrad_arg_spec (rawlen : Z) : minrad_arg rawlen = Ok (minrad_spec rawlen).
Proof.
  unfold minrad_arg, minrad_spec. destruct (rawlen <? 4000)%Z; [|reflexivity].
  change (Qis0 1000) with false. cbn. rewrite Z.max_comm. reflexivity.
Qed.

Ltac run_M :=
  unfold mbind, M_bind, bind, lift, emit, mret, M_ret, ret, try_except.

Section PipelineFacts.

Context {Pred : Type}.
Variable np_cos : float -> float.
Variable km2pix : float -> float -> float -> float.
Variable w : @World Pred.

Lemma process_image_trace (preds : list Pred) (i : nat) (st : array * nat)
    (tr : list event) :
  snd (process_image np_cos km2pix w preds i st tr)
  = match pix_bounds w i, index preds i with
    | Ok (p0, _, p2, _), Ok _ =>
        tr ++ [Call_template_match_t i (minrad_spec (p2 - p0))]
    | _, _ => tr
    end.
Proof.
  unfold process_image. destruct st as [cu n]. run_M.
  destruct (pix_bounds w i) as [[[[p0 p1] p2] p3]|e]; [|reflexivity].
  rewrite minrad_arg_spec.
  destruct (index preds i) as [pred|e]; [|reflexivity].
  destruct (template_match_t w pred _) as [coords|e]; [|reflexivity].
  destruct (0 <? length coords)%nat; [|reflexivity].
  destruct (longlat_bounds w i); [|reflexivity].
  destruct (pix_distortion_coefficient w i); reflexivity.
Qed.

Lemma process_image_events (preds : list Pred) (i : nat) (st : array * nat)
    (tr : list event) :
  exists evs, snd (process_image np_cos km2pix w preds i st tr) = tr ++ evs
              /\ Forall is_template_call evs.
Proof.
  rewrite process_image_trace.
  destruct (pix_bounds w i) as [[[[p0 p1] p2] p3]|e];
    [destruct (index preds i)|].
  - eexists. split; [reflexivity|]. repeat constructor. eexists _, _. reflexivity.
  - exists []. split; [symmetry; apply app_nil_r | constructor].
  - exists []. split; [symmetry; apply app_nil_r | constructor].
Qed.

Lemma run_images_events (preds : list Pred) (ids : list nat) :
  forall (st : array * nat) (tr : list event),
    exists evs, snd (run_images np_cos km2pix w preds ids st tr) = tr ++ evs
                /\ Forall is_template_call evs.
Proof.
  induction ids as [|i ids IH]; intros st tr; simpl.
  - exists []. split; [symmetry; apply app_nil_r | constructor].
  - run_M.
    destruct (process_image_events preds i st tr) as [evs [Htr Hevs]].
    destruct (process_image np_cos km2pix w preds i st tr) as [[st'|e] tr'].
    + simpl in Htr. subst tr'.
      destruct (IH st' (tr ++ evs)) as [evs' [Htr' Hevs']].
      exists (evs ++ evs'). rewrite Htr', app_assoc. split; [reflexivity|].
      apply Forall_app. split; assumption.
    + exists evs. split; assumption.
Qed.

Lemma run_images_app (preds : list Pred) (ids1 ids2 : list nat) :
  forall (st : array * nat) (tr : list event),
    run_images np_cos km2pix w preds (ids1 ++ ids2) st tr
    = bind (run_images np_cos km2pix w preds ids1 st)
           (run_images np_cos km2pix w preds ids2) tr.
Proof.
  induction ids1 as [|i ids1 IH]; intros st tr; simpl.
  - reflexivity.
  - run_M.
    destruct (process_image np_cos km2pix w preds i st tr) as [[st'|e] tr'];
      [|reflexivity].
    rewrite IH. reflexivity.
Qed.

End PipelineFacts.


Section FailureFacts.

Context {Pred : Type}.
Variable np_cos : float -> float.
Variable km2pix : float -> float -> float -> float.
Variable w : @World Pred.

Lemma after_load_events (preds : list Pred) (cu : array) (tr : list event) :
  exists evs, snd (after_load np_cos km2pix w preds cu tr) = tr ++ evs
              /\ Forall (fun ev => ev <> Call_get_model_preds) evs.
Proof.
  unfold after_load. run_M.
  destruct (open_data w) as [u|e].
  - destruct (run_images_events np_cos km2pix w preds (seq 0 (n_imgs w))
                (cu, 0%nat) tr) as [evs [Htr Hevs]].
    assert (Hne : Forall (fun ev => ev <> Call_get_model_preds) evs).
    { eapply Forall_impl; [exact Hevs|].
      intros ev [i [m ->]]. discriminate. }
    destruct (run_images _ _ _ _ _ _ tr) as [[st|e] tr'];
      simpl in Htr; subst tr'.
    + exists (evs ++ [Call_np_save (fst st)]).
      split.
      * destruct (np_save w (fst st)); simpl; rewrite app_assoc; reflexivity.
      * apply Forall_app. split; [exact Hne|].
        repeat constructor. discriminate.
    + exists evs. split; [reflexivity | exact Hne].
  - exists []. split; [symmetry; apply app_nil_r | constructor].
Qed.

(** The predictions are regenerated exactly when the load raises. *)
Lemma regenerates_iff_load_raises (cu : array) :
  regenerates np_cos km2pix w cu <-> exists e, load_preds w = Raise e.
Proof.
  unfold regenerates, run, extract_unique_craters, load_or_generate,
    get_model_preds.
  run_M. simpl.
  destruct (load_preds w) as [p|e].
  - destruct (after_load_events p cu
                [Print "Loaded model predictions successfully"])
      as [evs [Htr Hevs]].
    rewrite Htr. split.
    + intros Hin. apply in_app_or in Hin. destruct Hin as [Hin|Hin].
      * simpl in Hin. destruct Hin as [Hin|[]]. discriminate.
      * rewrite Forall_forall in Hevs.
        exfalso. apply (Hevs Call_get_model_preds); [|reflexivity].
        apply list_elem_of_In. exact Hin.
    + intros [e He]. discriminate.
  - split; [intros _; exists e; reflexivity|]. intros _.
    destruct (generate_preds w) as [p|e'].
    + match goal with
      | |- In _ (snd (after_load _ _ _ _ _ ?t)) =>
          destruct (after_load_events p cu t) as [evs [Htr _]]
      end.
      rewrite Htr. apply in_or_app. left. simpl. tauto.
    + simpl. tauto.
Qed.

Lemma process_image_raises_pix_bounds (preds : list Pred) (i : nat)
    (st : array * nat) (tr : list event) (e : exn) :
  pix_bounds w i = Raise e ->
  fst (process_image np_cos km2pix w preds i st tr) = Raise e.
Proof.
  intros H. unfold process_image. destruct st as [cu n]. run_M.
  rewrite H. reflexivity.
Qed.

Lemma process_image_raises_longlat_bounds (preds : list Pred) (i : nat)
    (st : array * nat) (tr : list event) (pb : bounds4 Z) (pred : Pred)
    (c : crater) (coords : array) (e : exn) :
  pix_bounds w i = Ok pb ->
  index preds i = Ok pred ->
  (forall m, template_match_t w pred m = Ok (c :: coords)) ->
  longlat_bounds w i = Raise e ->
  fst (process_image np_cos km2pix w preds i st tr) = Raise e.
Proof.
  intros Hpb Hpred Htm Hll. unfold process_image. destruct st as [cu n].
  run_M. rewrite Hpb. destruct pb as [[[p0 p1] p2] p3].
  rewrite minrad_arg_spec, Hpred, Htm. simpl. rewrite Hll. reflexivity.
Qed.

(** Once the predictions are there, whatever the rest raises reaches the
    caller: the opening of the data file, the first image whose processing
    raises, and the saving of the result. *)
Lemma after_load_propagates (preds : list Pred) (cu : array)
    (tr : list event) (e : exn) :
  (open_data w = Raise e ->
   fst (after_load np_cos km2pix w preds cu tr) = Raise e)
  /\ (forall (i : nat) (st' : array * nat) (tr' : list event),
        open_data w = Ok tt -> (i < n_imgs w)%nat ->
        run_images np_cos km2pix w preds (seq 0 i) (cu, 0%nat) tr
        = (Ok st', tr') ->
        fst (process_image np_cos km2pix w preds i st' tr') = Raise e ->
        fst (after_load np_cos km2pix w preds cu tr) = Raise e)
  /\ (forall (st' : array * nat) (tr' : list event),
        open_data w = Ok tt ->
        run_images np_cos km2pix w preds (seq 0 (n_imgs w)) (cu, 0%nat) tr
        = (Ok st', tr') ->
        np_save w (fst st') = Raise e ->
        fst (after_load np_cos km2pix w preds cu tr) = Raise e).
Proof.
  repeat split.
  - intros H. unfold after_load. run_M. rewrite H. reflexivity.
  - intros i st' tr' Hopen Hi Hrun Hraise.
    unfold after_load. run_M. rewrite Hopen.
    replace (seq 0 (n_imgs w))
      with (seq 0 i ++ i :: seq (S i) (n_imgs w - S i)).
    2:{ change (i :: seq (S i) (n_imgs w - S i))
          with (seq i (S (n_imgs w - S i))).
        rewrite <- seq_app. f_equal. lia. }
    rewrite run_images_app. unfold bind at 1. rewrite Hrun.
    simpl. run_M.
    destruct (process_image np_cos km2pix w preds i st' tr') as [[s|e0] t];
      simpl in Hraise; [discriminate|].
    injection Hraise as ->. reflexivity.
  - intros st' tr' Hopen Hrun Hsave.
    unfold after_load. run_M. rewrite Hopen, Hrun, Hsave. reflexivity.
Qed.

End FailureFacts.

Section LookupFailures.

Context {Pred : Type}.
Variable np_cos : float -> float.
Variable km2pix : float -> float -> float -> float.
Variable w : @World Pred.
Variables (preds : list Pred) (i : nat) (st : array * nat) (tr : list event).
Variables (p0 p1 p2 p3 : Z).
Hypothesis Hpb : pix_bounds w i = Ok (p0, p1, p2, p3).

Ltac enter_image :=
  unfold process_image; destruct st as [cu n]; run_M;
  rewrite Hpb, minrad_arg_spec.

(** [preds[i]] raises. *)
Lemma process_image_raises_index (e : exn) :
  index preds i = Raise e ->
  fst (process_image np_cos km2pix w preds i st tr) = Raise e.
Proof using Hpb.
  intros H. enter_image. rewrite H. reflexivity.
Qed.

(** The template matcher raises. *)
Lemma process_image_raises_matcher (pred : Pred) (e : exn) :
  index preds i = Ok pred ->
  template_match_t w pred (minrad_spec (p2 - p0)) = Raise e ->
  fst (process_image np_cos km2pix w preds i st tr) = Raise e.
Proof using Hpb.
  intros Hpred H. enter_image. rewrite Hpred, H. reflexivity.
Qed.

(** The longitude/latitude bounds of an image with a detection cannot be
    read. *)
Lemma process_image_raises_longlat (pred : Pred) (c : crater)
    (coords : array) (e : exn) :
  index preds i = Ok pred ->
  template_match_t w pred (minrad_spec (p2 - p0)) = Ok (c :: coords) ->
  longlat_bounds w i = Raise e ->
  fst (process_image np_cos km2pix w preds i st tr) = Raise e.
Proof using Hpb.
  intros Hpred Htm H. enter_image. rewrite Hpred, Htm. simpl.
  rewrite H. reflexivity.
Qed.

(** The distortion coefficient of an image with a detection cannot be
    read. *)
Lemma process_image_raises_distortion (pred : Pred) (c : crater)
    (coords : array) (llbd : bounds4 float) (e : exn) :
  index preds i = Ok pred ->
  template_match_t w pred (minrad_spec (p2 - p0)) = Ok (c :: coords) ->
  longlat_bounds w i = Ok llbd ->
  pix_distortion_coefficient w i = Raise e ->
  fst (process_image np_cos km2pix w preds i st tr) = Raise e.
Proof using Hpb.
  intros Hpred Htm Hll H. enter_image. rewrite Hpred, Htm. simpl.
  rewrite Hll, H. reflexivity.
Qed.

End LookupFailures.

(** C5, as amended.  The predictions are regenerated exactly when loading
    them raises, whatever the exception; a failure of the regeneration
    reaches the caller, and so does everything raised after the
    predictions are there: by the opening of the data file, by the first
    image whose processing raises, and by the saving of the catalog.  The
    processing of an image raises whatever one of its steps raises: the
    lookup of its pixel bounds, [preds[i]], the template matcher and, when
    the matcher returned a detection, the lookups of its longitude/latitude
    bounds and of its distortion coefficient. *)
Theorem failure_semantics {Pred : Type} (np_cos : float -> float)
    (km2pix : float -> float -> float -> float) (w : @World Pred)
    (cu : array) :
  (regenerates np_cos km2pix w cu <-> exists e, load_preds w = Raise e)
  /\ (forall e e' : exn,
        load_preds w = Raise e -> generate_preds w = Raise e' ->
        fst (run np_cos km2pix w cu) = Raise e')
  /\ (forall (preds : list Pred) (tr : list event) (e : exn),
        load_or_generate w [] = (Ok preds, tr) ->
        (open_data w = Raise e -> fst (run np_cos km2pix w cu) = Raise e)
        /\ (forall (i : nat) (st' : array * nat) (tr' : list event),
              open_data w = Ok tt -> (i < n_imgs w)%nat ->
              run_images np_cos km2pix w preds (seq 0 i) (cu, 0%nat) tr
              = (Ok st', tr') ->
              fst (process_image np_cos km2pix w preds i st' tr') = Raise e ->
              fst (run np_cos km2pix w cu) = Raise e)
        /\ (forall (st' : array * nat) (tr' : list event),
              open_data w = Ok tt ->
              run_images np_cos km2pix w preds (seq 0 (n_imgs w))
                         (cu, 0%nat) tr
              = (Ok st', tr') ->
              np_save w (fst st') = Raise e ->
              fst (run np_cos km2pix w cu) = Raise e))
  /\ (forall (preds : list Pred) (i : nat) (st : array * nat)
             (tr : list event) (e : exn),
        pix_bounds w i = Raise e ->
        fst (process_image np_cos km2pix w preds i st tr) = Raise e)
  /\ (forall (preds : list Pred) (i : nat) (st : array * nat)
             (tr : list event) (p0 p1 p2 p3 : Z) (e : exn),
        pix_bounds w i = Ok (p0, p1, p2, p3) ->
        (index preds i = Raise e ->
         fst (process_image np_cos km2pix w preds i st tr) = Raise e)
        /\ (forall pred : Pred,
              index preds i = Ok pred ->
              template_match_t w pred (minrad_spec (p2 - p0)) = Raise e ->
              fst (process_image np_cos km2pix w preds i st tr) = Raise e)
        /\ (forall (pred : Pred) (c : crater) (coords : array),
              index preds i = Ok pred ->
              template_match_t w pred (minrad_spec (p2 - p0))
              = Ok (c :: coords) ->
              (longlat_bounds w i = Raise e ->
               fst (process_image np_cos km2pix w preds i st tr) = Raise e)
              /\ (forall llbd : bounds4 float,
                    longlat_bounds w i = Ok llbd ->
                    pix_distortion_coefficient w i = Raise e ->
                    fst (process_image np_cos km2pix w preds i st tr)
                    = Raise e))).
Proof.
  split; [apply regenerates_iff_load_raises|].
  split.
  { intros e e' Hload Hgen.
    unfold run, extract_unique_craters, load_or_generate, get_model_preds.
    run_M. rewrite Hload. simpl. rewrite Hgen. reflexivity. }
  split.
  { intros preds tr e Hlg.
    assert (Hrun : run np_cos km2pix w cu
                   = after_load np_cos km2pix w preds cu tr).
    { unfold run, extract_unique_craters, mbind, M_bind, bind.
      rewrite Hlg. reflexivity. }
    rewrite Hrun. apply after_load_propagates. }
  split; [intros preds i st tr e; apply process_image_raises_pix_bounds|].
  intros preds i st tr p0 p1 p2 p3 e Hpb.
  split; [eapply process_image_raises_index; exact Hpb|].
  split; [intros pred; eapply process_image_raises_matcher; exact Hpb|].
  intros pred c coords Hpred Htm. split.
  - intros H. eapply process_image_raises_longlat; eassumption.
  - intros llbd Hll H. eapply process_image_raises_distortion; eassumption.
Qed.

(** C5, as stated, fails.  In [world_missing_dataset] the predictions file
    is there and the load raises [KeyError]; the predictions are
    regenerated all the same, and the run returns without raising. *)
Lemma regeneration_on_key_error :
  ~ regenerates_only_when_missing const_one const_one3
      world_missing_dataset [].
Proof.
  intros [Hiff _].
  assert (Hregen : regenerates const_one const_one3 world_missing_dataset []).
  { unfold regenerates. vm_compute. tauto. }
  apply Hiff in Hregen. discriminate.
Qed.

(** ** Degenerate radius *)

(** What the lower bound on the radius in [sizeable] rules out: for a
    candidate of radius 0 the position test divides 0 by 0, the comparison
    with NaN is false, and the candidate is appended although the catalog
    holds the very same row. *)
Example zero_radius_is_appended :
  add_unique_craters (Fin 1) (Fin 1) [q3 0 0 0] [q3 0 0 0]
  = [q3 0 0 0; q3 0 0 0].
Proof. reflexivity. Qed.

(** A call on [sample_heap]: both candidates are new, the result is a
    third object, and the two arguments are still what they were. *)
Example sample_call :
  match add_unique_craters_st (Fin 1) (Fin 1) 1%positive 2%positive
          sample_heap with
  | Some (r, h') =>
      h' !! r = Some [east_0; east_50; east_70]
      /\ sample_heap !! r = None
      /\ h' !! 1%positive = Some [east_50; east_70]
      /\ h' !! 2%positive = Some [east_0]
  | None => False
  end.
Proof. vm_compute. repeat split; reflexivity. Qed.

(** ** Sample runs of the pipeline *)

(** Two images that see the same crater: the predictions are loaded, the
    matcher is called with [minrad = 9] for both, and the catalog that is
    saved and returned holds the crater once. *)
Example run_two_images :
  exists c : crater,
    run const_one const_one3 world_two_images []
    = (Ok [c],
       [Print "Loaded model predictions successfully";
        Call_template_match_t 0 9; Call_template_match_t 1 9;
        Call_np_save [c]])
    /\ (c_long c =? Fin 15)%float = true
    /\ (c_lat c =? Fin 35)%float = true
    /\ (c_rad c =? Fin 10)%float = true.
Proof.
  eexists. split; [vm_compute; reflexivity|].
  vm_compute. repeat split; reflexivity.
Qed.

(** A failing lookup of the pixel bounds ends the run with its exception;
    nothing is saved. *)
Example run_no_pix_bounds :
  run const_one const_one3 world_no_pix_bounds []
  = (Raise KeyError, [Print "Loaded model predictions successfully"]).
Proof. reflexivity. Qed.

(** A load that raises [KeyError] is answered by regenerating. *)
Example run_missing_dataset :
  run const_one const_one3 world_missing_dataset []
  = (Ok [],
     [Print "Couldnt load model predictions, generating";
      Call_get_model_preds;
      Print "Successfully generated and saved model predictions.";
      Call_np_save []]).
Proof. reflexivity. Qed.

(* ================================================================== *)
(** * Further properties of the code *)
(* ================================================================== *)

(** ** Signs of the two differences *)

Lemma Qltb_false (a b : Q) : (b <= a)%Q -> Qltb a b = false.
Proof.
  intros H. unfold Qltb. apply negb_false_iff. apply Qle_bool_iff. exact H.
Qed.

Lemma sq_nonneg (x : float) : nonneg (sq x).
Proof.
  destruct x as [a|s|]; simpl; [nra | destruct s; reflexivity | exact I].
Qed.

Lemma add_nonneg (x y : float) : nonneg x -> nonneg y -> nonneg (x + y).
Proof.
  destruct x as [a|s|], y as [b|t|]; simpl; try tauto; try lra.
  intros -> ->. reflexivity.
Qed.

Lemma div_nonneg (x y : float) : nonneg x -> nonneg y -> nonneg (x / y).
Proof.
  destruct x as [a|s|], y as [b|t|]; simpl; try tauto; try lra.
  - intros Ha Hb. destruct (Qis0 b) eqn:Eb.
    + destruct (Qis0 a); [exact I|]. simpl. unfold Qneg.
      apply Qltb_false. exact Ha.
    + simpl. assert (Hb0 : ~ (b == 0)%Q).
      { intros H. apply Qis0_true in H. congruence. }
      apply Qle_shift_div_l; lra.
  - intros -> Hb. simpl. unfold Qneg. apply Qltb_false. exact Hb.
Qed.

Lemma diff_longlat_nonneg (e c : crater) : nonneg (diff_longlat_of e c).
Proof.
  unfold diff_longlat_of.
  apply div_nonneg; [apply add_nonneg|]; apply sq_nonneg.
Qed.

Lemma diff_rad_nonneg (e c : crater) : nonneg (diff_rad_of e c).
Proof. apply sq_nonneg. Qed.

(** Nothing that is not negative lies below a threshold that is not
    positive. *)
Lemma nonneg_not_below (x t : float) :
  nonneg x -> not_positive t -> (x <? t)%float = false.
Proof.
  unfold not_positive. intros Hx [Hn|Ht]; [subst t; destruct x; reflexivity|].
  destruct x as [a|s|], t as [b|u|]; simpl in *; try congruence;
    try reflexivity.
  - apply Qltb_false. apply Qle_bool_iff in Ht. lra.
  - subst u. reflexivity.
  - subst s. reflexivity.
Qed.

(** A quotient by a finite zero is never below anything. *)
Lemma nonneg_div_zero (x t : float) (d : Q) :
  nonneg x -> (d == 0)%Q -> (x / Fin d <? t)%float = false.
Proof.
  intros Hx Hd.
  assert (Hq : (x / Fin d)%float = NaN \/ (x / Fin d)%float = Inf false).
  { destruct x as [a|s|]; simpl in *.
    - apply Qis0_true in Hd. rewrite Hd.
      destruct (Qis0 a); [left; reflexivity|]. right.
      unfold Qneg. rewrite Qltb_false; [reflexivity | exact Hx].
    - subst s. right. unfold Qneg. rewrite Qltb_false; [reflexivity | lra].
    - left. reflexivity. }
  destruct Hq as [-> | ->]; destruct t as [b|u|]; reflexivity.
Qed.

Lemma filter_all {A : Type} (f : A -> bool) (l : list A) :
  Forall (fun x => f x = true) l -> List.filter f l = l.
Proof.
  induction 1 as [|x l Hx _ IH]; simpl; [reflexivity|].
  rewrite Hx, IH. reflexivity.
Qed.

Lemma is_duplicate_false (tl tr : float) (catalog : array) (c : crater) :
  (forall e, In e catalog ->
     (diff_longlat_of e c <? tl)%float = false
     \/ (diff_rad_of e c <? tr)%float = false) ->
  is_duplicate tl tr catalog c = false.
Proof.
  intros H. destruct (is_duplicate tl tr catalog c) eqn:E; [|reflexivity].
  apply is_duplicate_iff in E. destruct E as [e [Hin [H1 H2]]].
  destruct (H e Hin) as [H'|H']; congruence.
Qed.

(** ** Edge cases of [add_unique_craters] *)

(** X1.  Candidates whose radius is zero are all appended, whatever the
    catalog holds and whatever the thresholds are: the position test
    divides by [(0 * km_to_deg)**2], and neither NaN nor +inf is below a
    threshold. *)
Theorem zero_radius_always_appended (tl tr : float) (batch catalog : array) :
  Forall zero_radius batch ->
  add_unique_craters tl tr batch catalog = catalog ++ batch.
Proof.
  intros Hall. rewrite add_unique_craters_filter. f_equal.
  apply filter_all. eapply Forall_impl; [exact Hall|].
  intros c [r [Hr Hr0]]. unfold is_new. apply negb_true_iff.
  apply is_duplicate_false. intros e _. left.
  unfold diff_longlat_of. rewrite Hr.
  destruct km_to_deg_finite as [k [Hk _]]. rewrite Hk.
  change (sq (Fin r * Fin k)) with (Fin (r * k * (r * k))).
  apply nonneg_div_zero.
  - apply add_nonneg; apply sq_nonneg.
  - rewrite Hr0. ring.
Qed.

Lemma zero_radius_always_appended_witness :
  add_unique_craters (Fin 1.8) (Fin 1) [q3 0 0 0; q3 5 5 0] [q3 0 0 0; east_0]
  = [q3 0 0 0; east_0] ++ [q3 0 0 0; q3 5 5 0].
Proof.
  apply zero_radius_always_appended.
  repeat constructor; exists 0%Q; split; reflexivity.
Defined.

(** X2.  When one of the two thresholds is zero, negative or NaN, no
    candidate is ever taken for a duplicate: the call appends the whole
    batch, in order. *)
Theorem no_duplicates_without_tolerance (tl tr : float)
    (batch catalog : array) :
  not_positive tl \/ not_positive tr ->
  add_unique_craters tl tr batch catalog = catalog ++ batch.
Proof.
  intros Hthr. rewrite add_unique_craters_filter. f_equal.
  apply filter_all. apply Forall_forall. intros c _.
  unfold is_new. apply negb_true_iff.
  apply is_duplicate_false. intros e _.
  destruct Hthr as [H|H]; [left|right].
  - apply nonneg_not_below; [apply diff_longlat_nonneg | exact H].
  - apply nonneg_not_below; [apply diff_rad_nonneg | exact H].
Qed.

Lemma no_duplicates_without_tolerance_witness :
  add_unique_craters (Fin 0) (Fin 1) [east_0; east_0] [east_0]
  = [east_0] ++ [east_0; east_0].
Proof.
  apply no_duplicates_without_tolerance. left. right. reflexivity.
Defined.

(** ** How merges compose *)

Lemma is_duplicate_app (tl tr : float) (catalog more : array) (c : crater) :
  is_duplicate tl tr catalog c = true ->
  is_duplicate tl tr (catalog ++ more) c = true.
Proof.
  unfold is_duplicate. rewrite existsb_app. intros ->. reflexivity.
Qed.

Lemma filter_sublist_mono {A : Type} (f g : A -> bool) (l : list A) :
  (forall x, f x = true -> g x = true) ->
  sublist (List.filter f l) (List.filter g l).
Proof.
  intros Hfg. induction l as [|x l IH]; simpl; [constructor|].
  destruct (f x) eqn:Ef.
  - rewrite (Hfg x Ef). apply sublist_skip. exact IH.
  - destruct (g x); [apply sublist_cons|]; exact IH.
Qed.

(** X3.  Handing a batch over in two calls never keeps more than handing
    it over in one: what the two calls return is a subsequence of what the
    single call returns, because a candidate of the second part is then
    also compared with the rows the first part added. *)
Theorem two_calls_keep_no_more (tl tr : float) (b1 b2 catalog : array) :
  sublist (add_unique_craters tl tr b2 (add_unique_craters tl tr b1 catalog))
          (add_unique_craters tl tr (b1 ++ b2) catalog)
  /\ (length (add_unique_craters tl tr b2
                (add_unique_craters tl tr b1 catalog))
      <= length (add_unique_craters tl tr (b1 ++ b2) catalog))%nat.
Proof.
  assert (H : sublist
            (add_unique_craters tl tr b2 (add_unique_craters tl tr b1 catalog))
            (add_unique_craters tl tr (b1 ++ b2) catalog)).
  { rewrite !add_unique_craters_filter, List.filter_app, !app_assoc.
    apply sublist_app; [reflexivity|].
    apply filter_sublist_mono. intros c. unfold is_new.
    rewrite !negb_true_iff. intros Hnew.
    destruct (is_duplicate tl tr catalog c) eqn:E; [|reflexivity].
    rewrite (is_duplicate_app tl tr catalog _ c E) in Hnew. discriminate. }
  split; [exact H | apply sublist_length; exact H].
Qed.

(** X4.  After a merge with positive thresholds every sizeable candidate
    of the batch (finite position, finite radius of at least [min_radius])
    is matched by some row of the result, so merging the same batch once
    more adds nothing. *)
Theorem merged_batch_is_covered (tl tr : float) (batch catalog : array) :
  is_positive tl -> is_positive tr -> Forall sizeable batch ->
  Forall (fun c => is_duplicate tl tr
                     (add_unique_craters tl tr batch catalog) c = true) batch
  /\ add_unique_craters tl tr batch (add_unique_craters tl tr batch catalog)
     = add_unique_craters tl tr batch catalog.
Proof.
  intros Htl Htr Hwf.
  assert (Hcov : Forall (fun c => is_duplicate tl tr
                     (add_unique_craters tl tr batch catalog) c = true) batch).
  { apply Forall_forall. intros c Hin.
    rewrite Forall_forall in Hwf. specialize (Hwf c Hin).
    rewrite add_unique_craters_filter.
    destruct (is_duplicate tl tr catalog c) eqn:E.
    - apply is_duplicate_app. exact E.
    - apply is_duplicate_iff. exists c. split.
      + apply in_or_app. right. apply filter_In. split.
        * apply list_elem_of_In. exact Hin.
        * unfold is_new. rewrite E. reflexivity.
      + pose proof (matches_self tl tr c Htl Htr Hwf) as Hm.
        unfold matches in Hm. apply andb_true_iff in Hm. exact Hm. }
  split; [exact Hcov|].
  rewrite (add_unique_craters_filter tl tr batch
             (add_unique_craters tl tr batch catalog)).
  rewrite filter_none; [apply app_nil_r|].
  eapply Forall_impl; [exact Hcov|].
  intros c Hc. unfold is_new. rewrite Hc. reflexivity.
Qed.

Lemma merged_batch_is_covered_witness :
  Forall (fun c => is_duplicate (Fin 1) (Fin 1)
            (add_unique_craters (Fin 1) (Fin 1) [east_70; east_75] [east_0]) c
          = true) [east_70; east_75]
  /\ add_unique_craters (Fin 1) (Fin 1) [east_70; east_75]
       (add_unique_craters (Fin 1) (Fin 1) [east_70; east_75] [east_0])
     = add_unique_craters (Fin 1) (Fin 1) [east_70; east_75] [east_0].
Proof.
  apply merged_batch_is_covered; [reflexivity..|].
  repeat constructor; simpl; try tauto;
    (exists 1%Q; split; [reflexivity | unfold min_radius; discriminate]).
Defined.

(** ** The role of the candidate's radius *)

Lemma ltb_Fin_Qeq (q1 q2 : Q) (t : float) :
  (q1 == q2)%Q -> (Fin q1 <? t)%float = (Fin q2 <? t)%float.
Proof.
  intros H. destruct t as [b|u|]; simpl; try reflexivity.
  unfold Qltb. rewrite H. reflexivity.
Qed.

Lemma ltb_Fin_le (q1 q2 : Q) (t : float) :
  (q2 <= q1)%Q -> (Fin q1 <? t)%float = true -> (Fin q2 <? t)%float = true.
Proof.
  intros H. destruct t as [b|u|]; simpl; try tauto.
  rewrite !Qltb_lt. lra.
Qed.

(** X5.  Between two well-formed detections of the same radius the match
    test gives the same answer whichever of the two is the candidate and
    whichever the catalog entry. *)
Theorem equal_radius_match_is_symmetric (tl tr : float) (c e : crater) :
  well_formed c -> well_formed e -> c_rad c = c_rad e ->
  matches tl tr c e = matches tl tr e c.
Proof.
  intros [Hlo [Hla [r [Hr Hpos]]]] [Hlo' [Hla' _]] Hrad.
  destruct c as [[lo la] rc], e as [[lo' la'] re].
  unfold c_long, c_lat, c_rad in *. simpl in *. subst rc re.
  destruct lo as [a| |]; [|contradiction..].
  destruct la as [b| |]; [|contradiction..].
  destruct lo' as [a'| |]; [|contradiction..].
  destruct la' as [b'| |]; [|contradiction..].
  destruct km_to_deg_finite as [k [Hk Hk0]].
  unfold matches, diff_longlat_of, diff_rad_of, c_long, c_lat, c_rad.
  simpl fst; simpl snd. rewrite Hk. f_equal.
  assert (Hden : ~ (r * k * (r * k) == 0)%Q).
  { intros H. apply Qmult_integral in H. destruct H as [H|H];
      apply Qmult_integral in H; lra. }
  unfold sq, sub, mul, add, opp, div. rewrite (Qis0_false _ Hden).
  apply ltb_Fin_Qeq. field. lra.
Qed.

Lemma equal_radius_match_is_symmetric_witness :
  matches (Fin 1.8) (Fin 1) east_0 east_50
  = matches (Fin 1.8) (Fin 1) east_50 east_0.
Proof.
  apply equal_radius_match_is_symmetric;
    [ repeat split; simpl; try tauto; eexists; split; reflexivity ..
    | reflexivity ].
Defined.

(** X6.  The position test is normalised by the radius of the candidate:
    an entry that is longlat-near a candidate of positive radius [r] is
    longlat-near every candidate at the same position with a larger
    radius. *)
Theorem position_tolerance_grows_with_radius (tl lo la : float) (r r' : Q)
    (e : crater) :
  (0 < r)%Q -> (r <= r')%Q ->
  (diff_longlat_of e (lo, la, Fin r) <? tl)%float = true ->
  (diff_longlat_of e (lo, la, Fin r') <? tl)%float = true.
Proof.
  intros Hr Hrr.
  destruct km_to_deg_finite as [k [Hk Hk0]].
  unfold diff_longlat_of, c_long, c_lat, c_rad. simpl fst; simpl snd.
  rewrite Hk.
  change (sq (Fin r * Fin k)) with (Fin (r * k * (r * k))).
  change (sq (Fin r' * Fin k)) with (Fin (r' * k * (r' * k))).
  pose proof (add_nonneg _ _ (sq_nonneg (e.1.1 - lo)) (sq_nonneg (e.1.2 - la)))
    as HN.
  set (N := (sq (e.1.1 - lo) + sq (e.1.2 - la))%float) in *.
  assert (Hk2 : (0 < k * k)%Q).
  { destruct (Q_dec k 0) as [[H|H]|H]; [nra | nra | contradiction]. }
  assert (Hr2 : (0 < r * r)%Q) by nra.
  assert (Hrr2 : (r * r <= r' * r')%Q) by nra.
  assert (E : forall x : Q, (x * k * (x * k) == x * x * (k * k))%Q)
    by (intros x; ring).
  assert (HD : (0 < r * k * (r * k))%Q).
  { rewrite E. apply Qmult_lt_0_compat; assumption. }
  assert (HD' : (r * k * (r * k) <= r' * k * (r' * k))%Q).
  { rewrite !E. apply Qmult_le_compat_r; lra. }
  clear E.
  destruct N as [n|s|]; simpl in *.
  - rewrite !Qis0_false by lra.
    apply ltb_Fin_le.
    apply Qle_shift_div_r; [lra|].
    assert (Hq : (0 <= n / (r * k * (r * k)))%Q)
      by (apply Qle_shift_div_l; lra).
    assert (Hn : (n / (r * k * (r * k)) * (r * k * (r * k)) == n)%Q)
      by (field; lra).
    nra.
  - subst s. unfold Qneg. rewrite Qltb_false by lra.
    destruct tl; discriminate.
  - destruct tl; discriminate.
Qed.

Lemma position_tolerance_grows_with_radius_witness :
  (diff_longlat_of east_0 (Fin 0.05, Fin 0, Fin 2) <? Fin 4)%float = true.
Proof.
  apply (position_tolerance_grows_with_radius (Fin 4) (Fin 0.05) (Fin 0) 1 2
           east_0); [reflexivity | lra | reflexivity].
Defined.

(** ** The minimum radius as a function of the span *)

Lemma minrad_spec_closed (span : Z) :
  minrad_spec span
  = if (span <? 4000)%Z then Z.max 3 ((3 * span - 3000) ÷ 1000) else 9%Z.
Proof. unfold minrad_spec. rewrite Qtrunc_linear. reflexivity. Qed.

Lemma minrad_spec_range (span : Z) : (3 <= minrad_spec span <= 9)%Z.
Proof.
  rewrite minrad_spec_closed. destruct (Z.ltb_spec span 4000); [|lia].
  Z.to_euclidean_division_equations. lia.
Qed.

(** X7.  The minimum radius never leaves the range 3..9 and never
    decreases when the span grows; it is 3 exactly for the spans up to
    2333 pixels (negative spans included) and 9 exactly from 4000 on. *)
Theorem minrad_shape :
  (forall span : Z, (3 <= minrad_spec span <= 9)%Z)
  /\ (forall s1 s2 : Z, (s1 <= s2)%Z -> (minrad_spec s1 <= minrad_spec s2)%Z)
  /\ (forall span : Z, minrad_spec span = 3%Z <-> (span <= 2333)%Z)
  /\ (forall span : Z, minrad_spec span = 9%Z <-> (4000 <= span)%Z).
Proof.
  split; [exact minrad_spec_range|].
  split; [|split].
  - intros s1 s2 H. rewrite !minrad_spec_closed.
    destruct (Z.ltb_spec s1 4000), (Z.ltb_spec s2 4000);
      Z.to_euclidean_division_equations; lia.
  - intros span. rewrite minrad_spec_closed.
    destruct (Z.ltb_spec span 4000);
      Z.to_euclidean_division_equations; lia.
  - intros span. rewrite minrad_spec_closed.
    destruct (Z.ltb_spec span 4000);
      Z.to_euclidean_division_equations; lia.
Qed.

(** ** The conversion, row by row *)

Section ConvertFacts.

Variable np_cos : float -> float.
Variable km2pix : float -> float -> float -> float.
Variables (dim : float) (llbd : bounds4 float) (dc : float).

Lemma convert_cons (c : crater) (coords : array) :
  convert np_cos km2pix dim llbd dc (c :: coords)
  = convert np_cos km2pix dim llbd dc [c]
    ++ convert np_cos km2pix dim llbd dc coords.
Proof.
  unfold convert. destruct llbd as [[[ll0 ll1] ll2] ll3]. reflexivity.
Qed.

Lemma convert_one_row (c : crater) :
  length (convert np_cos km2pix dim llbd dc [c]) = 1%nat.
Proof.
  unfold convert. destruct llbd as [[[ll0 ll1] ll2] ll3]. reflexivity.
Qed.

Lemma convert_nil : convert np_cos km2pix dim llbd dc [] = [].
Proof.
  unfold convert. destruct llbd as [[[ll0 ll1] ll2] ll3]. reflexivity.
Qed.

Lemma convert_length (coords : array) :
  length (convert np_cos km2pix dim llbd dc coords) = length coords.
Proof.
  induction coords as [|c cs IH]; [rewrite convert_nil; reflexivity|].
  rewrite convert_cons, length_app, convert_one_row, IH. reflexivity.
Qed.

Lemma convert_app (xs ys : array) :
  convert np_cos km2pix dim llbd dc (xs ++ ys)
  = convert np_cos km2pix dim llbd dc xs
    ++ convert np_cos km2pix dim llbd dc ys.
Proof.
  induction xs as [|c cs IH]; simpl.
  - rewrite convert_nil. reflexivity.
  - rewrite convert_cons, IH, app_assoc, <- convert_cons. reflexivity.
Qed.

End ConvertFacts.

(** X8.  The conversion works row by row: it returns as many rows as it
    is given, in the same order, the row of a detection does not depend on
    the other detections of the image, and its radius is the pixel radius
    divided by [km2pix(dim, lat span, dc)]. *)
Theorem convert_is_rowwise (np_cos : float -> float)
    (km2pix : float -> float -> float -> float)
    (dim : float) (llbd : bounds4 float) (dc : float) (xs ys : array) :
  length (convert np_cos km2pix dim llbd dc xs) = length xs
  /\ convert np_cos km2pix dim llbd dc (xs ++ ys)
     = convert np_cos km2pix dim llbd dc xs
       ++ convert np_cos km2pix dim llbd dc ys
  /\ map c_rad (convert np_cos km2pix dim llbd dc xs)
     = map (fun c => c_rad c / km2pix dim (snd llbd - snd (fst llbd)) dc)%float
           xs.
Proof.
  split; [apply convert_length|]. split; [apply convert_app|].
  induction xs as [|c cs IH]; [rewrite convert_nil; reflexivity|].
  rewrite convert_cons, map_app, IH. simpl. f_equal.
  unfold convert. destruct llbd as [[[ll0 ll1] ll2] ll3]. reflexivity.
Qed.

(** X9.  Rows of the image run from north to south: with increasing
    latitude bounds and positive [dim] and [dc], of two detections the one
    with the larger [y] never gets the larger latitude, wherever they lie
    on the x axis.  (In exact arithmetic its latitude is strictly smaller;
    in binary64 two rows that are close enough can round to the same
    latitude, which the statement allows.) *)
Theorem latitude_never_increases_with_y (np_cos : float -> float)
    (km2pix : float -> float -> float -> float)
    (dim lo0 lo1 la0 la1 dc y1 y2 : Q) (x1 x2 r1 r2 : float) :
  (0 < dim)%Q -> (0 < dc)%Q -> (la0 < la1)%Q -> (y1 < y2)%Q ->
  exists lat1 lat2 : float,
    map c_lat (convert np_cos km2pix (Fin dim)
                 (Fin lo0, Fin lo1, Fin la0, Fin la1) (Fin dc)
                 [(x1, Fin y1, r1); (x2, Fin y2, r2)])
    = [lat1; lat2]
    /\ (lat1 <? lat2)%float = false.
Proof.
  intros Hdim Hdc Hla Hy. eexists _, _. split.
  - unfold convert, transpose. simpl. reflexivity.
  - unfold sub, add, opp, div, mul.
    rewrite !Qis0_false by lra. simpl. apply Qltb_false.
    assert (Hd : (0 < (la1 + - la0) / dim / dc)%Q).
    { apply Qlt_shift_div_l; [exact Hdc|].
      apply Qlt_shift_div_l; [exact Hdim|]. lra. }
    set (d := ((la1 + - la0) / dim / dc)%Q) in *. nra.
Qed.

Lemma latitude_never_increases_with_y_witness :
  exists lat1 lat2 : float,
    map c_lat (convert const_one const_one3 (Fin 256)
                 (Fin 10, Fin 20, Fin 30, Fin 40) (Fin 1)
                 [(Fin 200, Fin 10, Fin 5); (Fin 3, Fin 250, Fin 5)])
    = [lat1; lat2]
    /\ (lat1 <? lat2)%float = false.
Proof.
  apply (latitude_never_increases_with_y const_one const_one3
           256 10 20 30 40 1 10 250); reflexivity.
Defined.

(** ** The loop over the images *)

Lemma update_catalog_grows (tl tr : float) (tuple_ cu : array) :
  exists suffix : array,
    update_catalog tl tr tuple_ cu = cu ++ suffix
    /\ (length suffix <= length tuple_)%nat.
Proof.
  unfold update_catalog. destruct (0 <? length cu)%nat.
  - rewrite add_unique_craters_filter. eexists. split; [reflexivity|].
    apply sublist_length, filter_sublist.
  - exists tuple_. split; [reflexivity | lia].
Qed.

Section LoopFacts.

Context {Pred : Type}.
Variable np_cos : float -> float.
Variable km2pix : float -> float -> float -> float.
Variable w : @World Pred.

Lemma process_image_grows (preds : list Pred) (i : nat)
    (st st' : array * nat) (tr tr' : list event) :
  process_image np_cos km2pix w preds i st tr = (Ok st', tr') ->
  fst st `prefix_of` fst st'
  /\ (snd st <= snd st')%nat
  /\ (length (fst st') + snd st <= length (fst st) + snd st')%nat.
Proof.
  unfold process_image. destruct st as [cu n]. run_M.
  destruct (pix_bounds w i) as [[[[p0 p1] p2] p3]|e]; [|discriminate].
  rewrite minrad_arg_spec.
  destruct (index preds i) as [pred|e]; [|discriminate].
  destruct (template_match_t w pred _) as [coords|e]; [|discriminate].
  destruct (0 <? length coords)%nat.
  - destruct (longlat_bounds w i) as [llbd|e]; [|discriminate].
    destruct (pix_distortion_coefficient w i) as [dc|e]; [|discriminate].
    intros H. injection H as <- _. simpl.
    destruct (update_catalog_grows (llt2 w) (rt2 w)
                (convert np_cos km2pix (dim w) llbd dc coords) cu)
      as [suffix [-> Hlen]].
    rewrite convert_length in Hlen. rewrite length_app.
    split; [apply prefix_app_r; reflexivity | lia].
  - intros H. injection H as <- _. simpl.
    split; [reflexivity | lia].
Qed.

Lemma run_images_grows (preds : list Pred) (ids : list nat) :
  forall (st st' : array * nat) (tr tr' : list event),
    run_images np_cos km2pix w preds ids st tr = (Ok st', tr') ->
    fst st `prefix_of` fst st'
    /\ (snd st <= snd st')%nat
    /\ (length (fst st') + snd st <= length (fst st) + snd st')%nat.
Proof.
  induction ids as [|i ids IH]; intros st st' tr tr'; simpl.
  - run_M. intros H. injection H as <- _. split; [reflexivity | lia].
  - run_M.
    destruct (process_image np_cos km2pix w preds i st tr) as [[st1|e] tr1]
      eqn:E; [|discriminate].
    intros H. apply IH in H. apply process_image_grows in E.
    destruct H as [H1 [H2 H3]], E as [E1 [E2 E3]].
    split; [etransitivity; eassumption | lia].
Qed.

End LoopFacts.

(** X10.  Over any number of images the loop only appends to the catalog:
    the catalog it starts from is a prefix of the one it ends with, and
    the number of rows added is at most the number of detections counted
    in [N_matches_tot]. *)
Theorem catalog_growth_is_counted {Pred : Type} (np_cos : float -> float)
    (km2pix : float -> float -> float -> float) (w : @World Pred)
    (preds : list Pred) (ids : list nat) (st st' : array * nat)
    (tr tr' : list event) :
  run_images np_cos km2pix w preds ids st tr = (Ok st', tr') ->
  fst st `prefix_of` fst st'
  /\ (snd st <= snd st')%nat
  /\ (length (fst st') - length (fst st) <= snd st' - snd st)%nat.
Proof.
  intros H. apply run_images_grows in H. destruct H as [H1 [H2 H3]].
  split; [exact H1|]. split; [exact H2 | lia].
Qed.

Lemma catalog_growth_is_counted_witness :
  exists (st' : array * nat) (tr' : list event),
    run_images const_one const_one3 world_two_images [tt; tt] [0; 1]%nat
               ([east_0], 0%nat) []
    = (Ok st', tr')
    /\ [east_0] `prefix_of` fst st'
    /\ (0 <= snd st')%nat
    /\ (length (fst st') - length [east_0] <= snd st' - 0)%nat.
Proof.
  eexists _, _. split; [vm_compute; reflexivity|].
  eapply (catalog_growth_is_counted const_one const_one3 world_two_images
            [tt; tt] [0; 1]%nat ([east_0], 0%nat)) with (tr := []).
  vm_compute. reflexivity.
Defined.

(** ** The trace of a run *)

Section TraceFacts.

Context {Pred : Type}.
Variable np_cos : float -> float.
Variable km2pix : float -> float -> float -> float.
Variable w : @World Pred.






End TraceFacts.





Section BlankFacts.

Context {Pred : Type}.
Variable np_cos : float -> float.
Variable km2pix : float -> float -> float -> float.
Variable w : @World Pred.


End BlankFacts.



(** ** Regenerated predictions *)

Section ResultFacts.

Context {Pred : Type}.
Variable np_cos : float -> float.
Variable km2pix : float -> float -> float -> float.
Variable w : @World Pred.

(** What is computed does not depend on what was traced before. *)
Lemma process_image_result (preds : list Pred) (i : nat) (st : array * nat)
    (tr tr' : list event) :
  fst (process_image np_cos km2pix w preds i st tr)
  = fst (process_image np_cos km2pix w preds i st tr').
Proof.
  unfold process_image. destruct st as [cu n]. run_M.
  destruct (pix_bounds w i) as [[[[p0 p1] p2] p3]|e]; [|reflexivity].
  destruct (minrad_arg (p2 - p0)) as [m|e]; [|reflexivity].
  destruct (index preds i) as [pred|e]; [|reflexivity].
  destruct (template_match_t w pred m) as [coords|e]; [|reflexivity].
  destruct (0 <? length coords)%nat; [|reflexivity].
  destruct (longlat_bounds w i); [|reflexivity].
  destruct (pix_distortion_coefficient w i); reflexivity.
Qed.

Lemma run_images_result (preds : list Pred) (ids : list nat) :
  forall (st : array * nat) (tr tr' : list event),
    fst (run_images np_cos km2pix w preds ids st tr)
    = fst (run_images np_cos km2pix w preds ids st tr').
Proof.
  induction ids as [|i ids IH]; intros st tr tr'; simpl; [reflexivity|].
  run_M. pose proof (process_image_result preds i st tr tr') as H.
  destruct (process_image np_cos km2pix w preds i st tr) as [[s1|e1] t1],
           (process_image np_cos km2pix w preds i st tr') as [[s2|e2] t2];
    simpl in H; try discriminate.
  - injection H as ->. apply IH.
  - simpl. exact H.
Qed.

Lemma after_load_result (preds : list Pred) (cu : array)
    (tr tr' : list event) :
  fst (after_load np_cos km2pix w preds cu tr)
  = fst (after_load np_cos km2pix w preds cu tr').
Proof.
  unfold after_load. run_M.
  destruct (open_data w) as [u|e]; [|reflexivity].
  pose proof (run_images_result preds (seq 0 (n_imgs w)) (cu, 0%nat) tr tr')
    as H.
  destruct (run_images np_cos km2pix w preds (seq 0 (n_imgs w)) (cu, 0%nat) tr)
    as [[s1|e1] t1],
    (run_images np_cos km2pix w preds (seq 0 (n_imgs w)) (cu, 0%nat) tr')
    as [[s2|e2] t2]; simpl in H; try discriminate.
  - injection H as ->. destruct (np_save w (fst s2)); reflexivity.
  - injection H as ->. reflexivity.
Qed.

Lemma after_load_with_loaded (r : result (list Pred)) (preds : list Pred)
    (cu : array) (tr : list event) :
  after_load np_cos km2pix (with_loaded w r) preds cu tr
  = after_load np_cos km2pix w preds cu tr.
Proof. reflexivity. Qed.

End ResultFacts.

(** X14.  When the load of the predictions raises, the run returns (or
    raises) what it would have returned (or raised) had the regenerated
    predictions been the ones loaded: falling back on the model changes
    the trace, not the result. *)
Theorem regeneration_is_transparent {Pred : Type} (np_cos : float -> float)
    (km2pix : float -> float -> float -> float) (w : @World Pred)
    (cu : array) :
  (exists e, load_preds w = Raise e) ->
  fst (run np_cos km2pix w cu)
  = fst (run np_cos km2pix (with_loaded w (generate_preds w)) cu).
Proof.
  intros [e He].
  unfold run, extract_unique_craters, load_or_generate, get_model_preds.
  unfold mbind, M_bind, bind, lift, emit, mret, M_ret, ret, try_except.
  rewrite He. simpl.
  destruct (generate_preds w) as [p|e']; simpl; [|reflexivity].
  rewrite after_load_with_loaded. apply after_load_result.
Qed.

Lemma regeneration_is_transparent_witness :
  fst (run const_one const_one3 world_missing_dataset [east_0])
  = fst (run const_one const_one3
           (with_loaded world_missing_dataset
              (generate_preds world_missing_dataset)) [east_0]).
Proof.
  apply regeneration_is_transparent. exists KeyError. reflexivity.
Defined.

(** ** The pixel that is mapped to the centre *)

Lemma pixel_128_is_centre_witness :
  exists long lat rk : float,
    convert const_one const_one3 (Fin 512)
            (Fin 10, Fin 20, Fin 30, Fin 40) (Fin 1)
            [(Fin 128, Fin 128, Fin 5)]
    = [(long, lat, rk)]
    /\ (long =? midpoint (Fin 10) (Fin 20))%float = true
    /\ (lat =? midpoint (Fin 30) (Fin 40))%float = true.
Proof.
  apply (pixel_128_is_centre const_one const_one3 512 10 20 30 40 1 (Fin 5)).
  - unfold geometry_in_range. repeat split; discriminate.
  - intros q. exists 1%Q. split; [reflexivity | lra].
Defined.

(** A failing lookup of the longitude/latitude bounds of an image with a
    detection ends the run with its exception, after the matcher was
    called for that image; nothing is saved. *)
Example run_no_longlat_bounds :
  run const_one const_one3 world_no_longlat_bounds []
  = (Raise KeyError,
     [Print "Loaded model predictions successfully";
      Call_template_match_t 0 9]).
Proof. reflexivity. Qed.
